(** * Secret Santa organizer: assignment engine, verification, display tokens
      and the send-emails route.

    Shallow embedding of [src/app/page.tsx] and
    [src/app/api/send-emails/route.ts].  JavaScript arrays are lists read with
    stdpp's lookup and written with stdpp's insert; [Math.random] is an
    explicit stream threaded through the code that draws from it; React state
    and the Web platform are explicit records. *)

From Stdlib Require Import QArith Strings.Byte Strings.Ascii.
From stdpp Require Import base list strings gmap pretty.

Local Open Scope nat_scope.
Set Default Proof Using "Type".
#[local] Set Warnings "-clear-no-such-hyp".

(** ** Data model ([page.tsx] lines 6-15) *)

Record Participant := { id : string; name : string; email : string }.

Record Assignment := { giver : Participant; recipient : Participant }.

Global Instance Participant_eq_dec : EqDecision Participant.
Proof. solve_decision. Defined.

Global Instance Assignment_eq_dec : EqDecision Assignment.
Proof. solve_decision. Defined.

(** Reading an array slot that holds no element yields [undefined] in
    JavaScript.  Every indexed read in the code below is in range (lemmas
    [swap_in_range], [shuffle_length], [pair_up_lookup], [rotation_lookup]);
    the inhabitant is what an out-of-range read would show in the model. *)
Global Instance Participant_inhabited : Inhabited Participant :=
  populate {| id := ""; name := ""; email := "" |}.

(** ** The randomness source *)

(** A value returned by [Math.random()]: a real number of the half-open
    interval from 0 to 1, kept as the fraction [num/den].  Products with it
    are taken exactly; double arithmetic rounds [r * m] but keeps
    [Math.floor(r * m)] below [m], which is all the code relies on
    ([floor_mul_lt]). *)
Record Sample := { num : nat; den : nat; sample_lt : num < den }.

(** The values the following calls of [Math.random()] return, in order. *)
Definition Rng := nat → Sample.

(** Code that draws random numbers: the stream goes in, the rest comes out. *)
Definition Rand (A : Type) := Rng → A * Rng.

Global Instance Rand_ret : MRet Rand := λ A x g, (x, g).

Global Instance Rand_bind : MBind Rand := λ A B k m g,
  let (x, g') := m g in k x g'.

Definition Math_random : Rand Sample := λ g, (g 0, λ k, g (S k)).

(** [Math.floor(r * m)] for a sample [r] and a whole number [m]. *)
Definition floor_mul (r : Sample) (m : nat) : nat := (num r * m) / den r.

(** ** [shuffle] ([page.tsx] lines 21-28) *)

(** [[a[i], a[j]] = [a[j], a[i]]]: both slots are read, then [a[i]] and
    [a[j]] are written in that order.  The loop only swaps slots that exist
    ([swap_in_range]); on a missing slot the model leaves the array as it
    is. *)
Definition swap {T} (a : list T) (i j : nat) : list T :=
  match a !! i, a !! j with
  | Some x, Some y => <[j := x]> (<[i := y]> a)
  | _, _ => a
  end.

Fixpoint shuffle_loop {T} (i : nat) (a : list T) : Rand (list T) :=
  match i with
  | 0 => mret a
  | S i' =>
      r ← Math_random;
      let j := floor_mul r (i + 1) in
      shuffle_loop i' (swap a i j)
  end.

Definition shuffle {T} (arr : list T) : Rand (list T) :=
  shuffle_loop (length arr - 1) arr.

(** ** [assignSecretSantas] ([page.tsx] lines 30-51) *)

(** The inner loop of lines 37-43: [ok] stays [true] when no index [i < n]
    has [participants[i].id === recipients[i].id]. *)
Definition no_collision (participants recipients : list Participant) (n : nat) : bool :=
  forallb (λ i, negb (bool_decide (id (participants !!! i) = id (recipients !!! i))))
          (seq 0 n).

(** [participants.map((p, i) => ({ giver: p, recipient: recipients[i] }))] *)
Definition pair_up (participants recipients : list Participant) : list Assignment :=
  imap (λ i p, {| giver := p; recipient := recipients !!! i |}) participants.

(** The attempt loop of lines 35-47, [attempts] iterations left. [None] when
    the loop runs out without returning. *)
Fixpoint search (attempts : nat) (participants : list Participant)
  : Rand (option (list Assignment)) :=
  match attempts with
  | 0 => mret None
  | S k =>
      recipients ← shuffle participants;
      if no_collision participants recipients (length participants)
      then mret (Some (pair_up participants recipients))
      else search k participants
  end.

(** Line 50: the recipient of index [i] is [participants[(i + 1) % n]]. *)
Definition rotation (participants : list Participant) : list Assignment :=
  let n := length participants in
  imap (λ i p, {| giver := p; recipient := participants !!! ((i + 1) mod n) |})
       participants.

Definition assignSecretSantas (participants : list Participant) : Rand (list Assignment) :=
  let n := length participants in
  if n <? 2 then mret []
  else
    found ← search 1000 participants;
    match found with
    | Some res => mret res
    | None => mret (rotation participants)
    end.

(** ** Verification and display tokens ([page.tsx] lines 98-143) *)

Record Verification := { derangement : bool; bijection : bool }.

(** The three pieces of component state [createEncryptedTokensAndVerify]
    writes (lines 58-60). *)
Record UiState := {
  verification : option Verification;
  encryptedTokens : option (list string);
  error : option string
}.

Definition setVerification (v : option Verification) (s : UiState) : UiState :=
  {| verification := v; encryptedTokens := encryptedTokens s; error := error s |}.

Definition setEncryptedTokens (t : option (list string)) (s : UiState) : UiState :=
  {| verification := verification s; encryptedTokens := t; error := error s |}.

Definition setError (e : option string) (s : UiState) : UiState :=
  {| verification := verification s; encryptedTokens := encryptedTokens s; error := e |}.

(** Lines 101-104. [new Set(recipientIds)] is a finite set of strings. *)
Definition verify (res : list Assignment) (parts : list Participant) : Verification :=
  let derangement :=
    forallb (λ a, negb (bool_decide (id (giver a) = id (recipient a)))) res in
  let recipientIds := (λ a, id (recipient a)) <$> res in
  let uniqueRecipients : gset string := list_to_set recipientIds in
  let bijection := bool_decide (size uniqueRecipients = length parts) in
  {| derangement := derangement; bijection := bijection |}.

(** A string of this development holds the UTF-8 bytes of its text, so
    [encoder.encode(s)] lists the bytes of [s], and [===] on two ids is
    equality of the strings. *)
Definition encode (s : string) : list byte := String.list_byte_of_string s.

(** Lines 118-123: one character per byte, then [btoa]. *)
Definition binary_string (bytes : list byte) : string := String.string_of_list_byte bytes.

Definition b64_alphabet : string :=
  "ABCDEFGHIJKLMNOPQRSTUVWXYZabcdefghijklmnopqrstuvwxyz0123456789+/".

Definition b64_digit (k : N) : ascii :=
  default "="%char (String.get (N.to_nat k) b64_alphabet).

(** The platform's [btoa]: base64 with padding (RFC 4648) of a string of
    characters below 256. *)
Fixpoint btoa (s : string) : string :=
  match s with
  | EmptyString => EmptyString
  | String c0 EmptyString =>
      let n := (N_of_ascii c0 * 65536)%N in
      String (b64_digit (n / 262144)) (String (b64_digit (n / 4096 mod 64)) "==")
  | String c0 (String c1 EmptyString) =>
      let n := (N_of_ascii c0 * 65536 + N_of_ascii c1 * 256)%N in
      String (b64_digit (n / 262144)) (String (b64_digit (n / 4096 mod 64))
        (String (b64_digit (n / 64 mod 64)) "="))
  | String c0 (String c1 (String c2 rest)) =>
      let n := (N_of_ascii c0 * 65536 + N_of_ascii c1 * 256 + N_of_ascii c2)%N in
      String (b64_digit (n / 262144)) (String (b64_digit (n / 4096 mod 64))
        (String (b64_digit (n / 64 mod 64)) (String (b64_digit (n mod 64)) (btoa rest))))
  end.

Definition toBase64 (buf : list byte) : string := btoa (binary_string buf).

(** ** Base64 in the words of RFC 4648, section 4

    The encoding the claims name, written from the standard and not from the
    code: the input is read as a stream of bits, cut into groups of six (the
    last group filled up with zero bits), each group is the index of a
    character in the table A-Z, a-z, 0-9, +, /, and the text is padded with
    "=" to a multiple of four characters. *)

(** The eight bits of a byte, the most significant first. *)
Definition bits_of_byte (b : byte) : list bool :=
  (λ k, N.testbit (Byte.to_N b) k) <$> [7; 6; 5; 4; 3; 2; 1; 0]%N.

(** The number that a group of bits spells. *)
Definition value_of_bits (bits : list bool) : N :=
  foldl (λ acc (b : bool), (2 * acc + (if b then 1 else 0))%N) 0%N bits.

Fixpoint sextets (bits : list bool) : list (list bool) :=
  match bits with
  | [] => []
  | b0 :: b1 :: b2 :: b3 :: b4 :: b5 :: rest => [b0; b1; b2; b3; b4; b5] :: sextets rest
  | short => [take 6 (short ++ replicate 5 false)]
  end.

Definition base64_char (v : N) : ascii :=
  if (v <? 26)%N then ascii_of_N (65 + v)
  else if (v <? 52)%N then ascii_of_N (97 + (v - 26))
  else if (v <? 62)%N then ascii_of_N (48 + (v - 52))
  else if (v =? 62)%N then "+"%char
  else "/"%char.

Definition base64_rfc4648 (bytes : list byte) : string :=
  let bits := concat (bits_of_byte <$> bytes) in
  let chars := (λ group, base64_char (value_of_bits group)) <$> sextets bits in
  String.string_of_list_ascii (chars ++ replicate ((3 - length bytes mod 3) mod 3) "="%char).

(** What a call that can throw, or a promise that can reject, comes to. *)
Inductive Outcome (A : Type) := Ok (a : A) | Thrown.
Arguments Ok {A} a.
Arguments Thrown {A}.

Section TokenEncryptor.
(** The browser: [World] is everything outside the page that the Web
    Crypto calls read and change (the entropy pool, the key store). *)
Context {World Key : Type}.

(** [window.crypto.subtle]; a result [None] is a promise that rejects. *)
Record SubtleCrypto := {
  generateKey : World → option Key * World;
  encrypt : list byte → Key → list byte → World → option (list byte) * World
}.

(** [window.crypto]; [random_byte] fills one slot of the array handed to
    [getRandomValues]. *)
Record Crypto := {
  random_byte : World → byte * World;
  subtle : option SubtleCrypto
}.

Record Window := { crypto : option Crypto }.

(** [window.crypto.getRandomValues(new Uint8Array(len))] *)
Fixpoint getRandomValues (c : Crypto) (len : nat) (w : World) : list byte * World :=
  match len with
  | 0 => ([], w)
  | S k => let (b, w1) := random_byte c w in
           let (bs, w2) := getRandomValues c k w1 in
           (b :: bs, w2)
  end.

(** The loop of lines 126-135; [tokens] is the array built so far. *)
Fixpoint token_loop (c : Crypto) (sub : SubtleCrypto) (key : Key)
    (res : list Assignment) (tokens : list string) (w : World)
  : Outcome (list string) * World :=
  match res with
  | [] => (Ok tokens, w)
  | a :: rest =>
      let (iv, w1) := getRandomValues c 12 w in
      let data := encode (id (recipient a)) in
      match encrypt sub iv key data w1 with
      | (Some ct, w2) =>
          let combined := iv ++ ct in
          token_loop c sub key rest (tokens ++ [toBase64 combined]) w2
      | (None, w2) => (Thrown, w2)
      end
  end.

(** The body of the [try] block, lines 100-138. *)
Definition try_block (window : option Window) (res : list Assignment)
    (parts : list Participant) (w : World) (s : UiState)
  : Outcome unit * World * UiState :=
  let s1 := setVerification (Some (verify res parts)) s in
  match window with
  | None => (Ok (), w, setEncryptedTokens None s1)
  | Some win =>
      match crypto win with
      | None => (Ok (), w, setEncryptedTokens None s1)
      | Some c =>
          match subtle c with
          | None => (Ok (), w, setEncryptedTokens None s1)
          | Some sub =>
              match generateKey sub w with
              | (None, w0) => (Thrown, w0, s1)
              | (Some key, w0) =>
                  match token_loop c sub key res [] w0 with
                  | (Ok tokens, w') => (Ok (), w', setEncryptedTokens (Some tokens) s1)
                  | (Thrown, w') => (Thrown, w', s1)
                  end
              end
          end
      end
  end.

Definition token_failure : string := "Failed to create encrypted tokens.".

(** The whole function: what the [try] block did, and the [catch] of
    lines 139-142 when it threw ([console.error] writes to the console
    only). *)
Definition createEncryptedTokensAndVerify (window : option Window)
    (res : list Assignment) (parts : list Participant) (w : World) (s : UiState)
  : World * UiState :=
  match try_block window res parts w s with
  | (Ok _, w', s') => (w', s')
  | (Thrown, w', s') => (w', setError (Some token_failure) s')
  end.

(** [window.crypto.subtle] when the test of line 108 lets the function go
    on, [None] when it makes it skip the tokens. *)
Definition web_crypto (window : option Window) : option (Crypto * SubtleCrypto) :=
  win ← window; c ← crypto win; sub ← subtle c; Some (c, sub).

(** [t] is a token of the assignment [a] under [key]: the base64 text
    (RFC 4648) of a 12-byte nonce that [getRandomValues] drew, followed by
    what [encrypt] gave under that nonce for the UTF-8 bytes of the
    recipient's id. *)
Definition is_token (c : Crypto) (sub : SubtleCrypto) (key : Key)
    (a : Assignment) (t : string) : Prop :=
  ∃ iv ct w1 w2 w3,
    getRandomValues c 12 w1 = (iv, w2) ∧ length iv = 12
    ∧ encrypt sub iv key (encode (id (recipient a))) w2 = (Some ct, w3)
    ∧ t = base64_rfc4648 (iv ++ ct).

(** The tokens of a whole batch, made one after the other from the world
    [w] on: for each assignment in turn a nonce is drawn, the recipient's
    id is encrypted under it, and the token is the base64 text of nonce and
    ciphertext; the batch leaves the world [w']. *)
Inductive token_run (c : Crypto) (sub : SubtleCrypto) (key : Key)
  : World → list Assignment → list string → World → Prop :=
| token_run_nil w : token_run c sub key w [] [] w
| token_run_cons w w1 w2 w' a rest iv ct tokens :
    getRandomValues c 12 w = (iv, w1) →
    encrypt sub iv key (encode (id (recipient a))) w1 = (Some ct, w2) →
    token_run c sub key w2 rest tokens w' →
    token_run c sub key w (a :: rest) (base64_rfc4648 (iv ++ ct) :: tokens) w'.
End TokenEncryptor.

Arguments SubtleCrypto : clear implicits.
Arguments Crypto : clear implicits.
Arguments Window : clear implicits.

(** ** The send-emails route ([route.ts]) *)

Module Route.

(** A parsed JSON text. The fields of an object are listed in the order a
    lookup tries them. *)
Local Unset Elimination Schemes.
Inductive JSON :=
| JNull
| JBool (b : bool)
| JNum (q : Q)
| JStr (s : string)
| JArr (items : list JSON)
| JObj (fields : list (string * JSON)).
Local Set Elimination Schemes.

(** A JavaScript value of the handler: [None] is [undefined]. *)
Definition Value := option JSON.

(** An evaluation that completes or throws; [message] is what the
    [catch] of line 111 reads off the thrown value,
    [err?.message || String(err)]. *)
Inductive Completion (A : Type) := Normal (a : A) | Throws (message : string).
Arguments Normal {A} a.
Arguments Throws {A} message.

Global Instance Completion_ret : MRet Completion := λ A x, Normal x.

Global Instance Completion_bind : MBind Completion := λ A B k m,
  match m with
  | Normal a => k a
  | Throws msg => Throws msg
  end.

Definition truthy (v : Value) : bool :=
  match v with
  | None | Some JNull => false
  | Some (JBool b) => b
  | Some (JNum q) => negb (Qeq_bool q 0)
  | Some (JStr s) => negb (bool_decide (s = ""))
  | Some (JArr _) | Some (JObj _) => true
  end.

Definition isArray (v : Value) : bool :=
  match v with
  | Some (JArr _) => true
  | _ => false
  end.

Fixpoint assoc (k : string) (fields : list (string * JSON)) : Value :=
  match fields with
  | [] => None
  | (k', v) :: rest => if bool_decide (k' = k) then Some v else assoc k rest
  end.

(** [a || b] where [a] is a string or [undefined]. *)
Definition or_else (a b : option string) : option string :=
  match a with
  | Some s => if bool_decide (s = "") then b else a
  | None => b
  end.

Definition or_str (a : option string) (b : string) : string :=
  default b (or_else a (Some b)).

Definition str_truthy (a : option string) : bool :=
  match a with
  | Some s => negb (bool_decide (s = ""))
  | None => false
  end.

Record Env := {
  MAILEROO_API_KEY : option string;
  MAILEROO_API_URL : option string;
  MAILEROO_URL : option string;
  MAILEROO_FROM : option string;
  MAILEROO_FROM_ADDRESS : option string;
  MAILEROO_FROM_NAME : option string
}.

Record From := { address : string; display_name : option string }.

Record Payload := {
  from : From;
  to_address : Value;
  to_name : Value;
  subject : string;
  text : string;
  html : string
}.

Record Request := { url : string; authorization : string; payload : Payload }.

(** What [fetch] resolves to, with [res.json()] already tried:
    [parsed] is [JNull] when the reply is no JSON (lines 91-96). *)
Record ProviderReply := { ok : bool; status : nat; parsed : JSON }.

Record Result := { to : Value; r_ok : bool; r_status : nat; r_body : JSON }.

Inductive ResponseBody :=
| ErrorBody (error : string)
| SummaryBody (success total : nat) (results : list Result).

Record Response := { code : nat; body : ResponseBody }.

Definition not_configured : string :=
  "Maileroo not configured on server - set MAILEROO_API_KEY and MAILEROO_API_URL".

Definition nl : string := String (ascii_of_nat 10) EmptyString.

Section Handler.
(** The platform: the engine's wording of a [TypeError] for reading
    property [k] of [null] or [undefined], the text of a number, the
    engine's wording of the [TypeError] for an object that cannot be
    converted to a primitive value, the two regular expressions of
    [parseFromString] (result: name and address), and the network, where
    [fetch] rejects or resolves. *)
Context {World : Type}.
Variable type_error : Value → string → string.
Variable number_text : Q → string.
Variable convert_error : string.
Variable parseFromString : string → string * string.
Variable fetch : Request → World → Completion ProviderReply * World.

(** [v.k] for a property name [k] that no string, number, boolean or
    array has (the route reads [assignments], [giver], [recipient],
    [email] and [name] only). *)
Definition get (v : Value) (k : string) : Completion Value :=
  match v with
  | None | Some JNull => Throws (type_error v k)
  | Some (JObj fields) => Normal (assoc k fields)
  | Some _ => Normal None
  end.

(** The conversion to string of a parsed JSON value. An array is the texts
    of its elements joined by commas, [null] elements giving the empty
    text. An object calls the [toString] it finds: the inherited one gives
    "[object Object]"; an own field of that name is no function, the
    inherited [valueOf] returns the object itself, and the conversion
    throws. *)
Fixpoint to_text (v : JSON) : Completion string :=
  match v with
  | JNull => Normal "null"
  | JBool b => Normal (if b then "true" else "false")
  | JNum q => Normal (number_text q)
  | JStr s => Normal s
  | JArr items =>
      (fix join (l : list JSON) : Completion string :=
         match l with
         | [] => Normal ""
         | x :: rest =>
             s ← match x with JNull => Normal "" | _ => to_text x end;
             match rest with
             | [] => Normal s
             | _ => r ← join rest; Normal (s +:+ "," +:+ r)
             end
         end) items
  | JObj fields =>
      match assoc "toString" fields with
      | Some _ => Throws convert_error
      | None => Normal "[object Object]"
      end
  end.

(** [${v}] inside a template literal. *)
Definition interpolate (v : Value) : Completion string :=
  match v with
  | None => Normal "undefined"
  | Some j => to_text j
  end.

(** Lines 56-67. *)
Definition from_of (env : Env) : From :=
  let fromAddress := or_str (MAILEROO_FROM_ADDRESS env) "" in
  let fromName := or_str (MAILEROO_FROM_NAME env) "" in
  let '(fromAddress, fromName) :=
    if bool_decide (fromAddress = "") then
      let parsed :=
        if str_truthy (MAILEROO_FROM env)
        then parseFromString (default "" (MAILEROO_FROM env))
        else ("", "") in
      (or_str (Some (snd parsed)) fromAddress,
       or_str (Some (fst parsed)) (or_str (Some fromName) "Secret Santa"))
    else (fromAddress, fromName) in
  let fromAddress :=
    if bool_decide (fromAddress = "") then "no-reply@example.com" else fromAddress in
  {| address := fromAddress;
     display_name := if bool_decide (fromName = "") then None else Some fromName |}.

(** Lines 52-80 for one element [a] of the array: the reads of line 52,
    then the template literal of line 53, whose three conversions can
    throw; the literals of lines 75 and 78 convert the same values again. *)
Definition payload_of (env : Env) (a : JSON) : Completion Payload :=
  giver ← get (Some a) "giver";
  giver_email ← get giver "email";
  recipient ← get (Some a) "recipient";
  recipient_email ← get recipient "email";
  giver_name ← get giver "name";
  giver_name_text ← interpolate giver_name;
  recipient_name ← get recipient "name";
  recipient_name_text ← interpolate recipient_name;
  recipient_email_text ← interpolate recipient_email;
  let bodyText :=
    "Hi " +:+ giver_name_text +:+ "," +:+ nl +:+ nl +:+
    "You have been assigned to give a gift to " +:+ recipient_name_text +:+
    " (" +:+ recipient_email_text +:+ ")." +:+ nl +:+ nl +:+ "Happy gifting!" in
  mret {| from := from_of env;
          to_address := giver_email;
          to_name := giver_name;
          subject := "Secret Santa assignment";
          text := bodyText;
          html := "<p>Hi " +:+ giver_name_text +:+
                  ",</p><p>You have been assigned to shop for <strong>" +:+
                  recipient_name_text +:+ "</strong> (" +:+
                  recipient_email_text +:+ ").</p><p>Happy gifting!</p>" |}.

(** The loop of lines 51-107. [log] lists the requests handed to
    [fetch] so far, oldest first. *)
Fixpoint send_loop (env : Env) (url key : string) (items : list JSON)
    (results : list Result) (success : nat) (w : World) (log : list Request)
  : Completion (list Result * nat) * World * list Request :=
  match items with
  | [] => (Normal (results, success), w, log)
  | a :: rest =>
      match payload_of env a with
      | Throws msg => (Throws msg, w, log)
      | Normal p =>
          let rq := {| url := url; authorization := "Bearer " +:+ key; payload := p |} in
          match fetch rq w with
          | (Throws msg, w') => (Throws msg, w', log ++ [rq])
          | (Normal res, w') =>
              let r := {| to := to_address p; r_ok := ok res;
                          r_status := status res; r_body := parsed res |} in
              send_loop env url key rest (results ++ [r])
                        (if ok res then S success else success) w' (log ++ [rq])
          end
      end
  end.

(** The guard of line 18. [.length] is read only when the value is an
    array. *)
Definition no_assignments (assignments : Value) : bool :=
  negb (truthy assignments) || negb (isArray assignments) ||
  match assignments with
  | Some (JArr items) => length items =? 0
  | _ => false
  end.

(** The [try] block, lines 16-109; [request_json] is what [req.json()]
    comes to. *)
Definition try_block (env : Env) (request_json : Completion JSON) (w : World)
  : Completion Response * World * list Request :=
  match request_json with
  | Throws msg => (Throws msg, w, [])
  | Normal body =>
      match get (Some body) "assignments" with
      | Throws msg => (Throws msg, w, [])
      | Normal assignments =>
          if no_assignments assignments
          then (Normal {| code := 400; body := ErrorBody "no assignments" |}, w, [])
          else
            let key := MAILEROO_API_KEY env in
            let api_url := or_else (MAILEROO_API_URL env) (MAILEROO_URL env) in
            if negb (str_truthy key) || negb (str_truthy api_url)
            then (Normal {| code := 500; body := ErrorBody not_configured |}, w, [])
            else
              let items := match assignments with
                           | Some (JArr items) => items
                           | _ => []
                           end in
              match send_loop env (default "" api_url) (default "" key) items [] 0 w [] with
              | (Normal (results, success), w', log) =>
                  (Normal {| code := 200;
                             body := SummaryBody success (length items) results |},
                   w', log)
              | (Throws msg, w', log) => (Throws msg, w', log)
              end
      end
  end.

(** The handler: the [try] block, and the [catch] of lines 110-112. *)
Definition POST (env : Env) (request_json : Completion JSON) (w : World)
  : Response * World * list Request :=
  match try_block env request_json w with
  | (Normal r, w', log) => (r, w', log)
  | (Throws msg, w', log) => ({| code := 500; body := ErrorBody msg |}, w', log)
  end.
End Handler.

(** The value the handler finds under [assignments] in a body that is not
    [null]. *)
Definition assignments_of (body : JSON) : Value :=
  match body with
  | JObj fields => assoc "assignments" fields
  | _ => None
  end.

Definition nonempty_array (v : Value) : bool :=
  match v with
  | Some (JArr (_ :: _)) => true
  | _ => false
  end.

(** A value whose properties can be read: neither [undefined] nor [null]. *)
Definition readable (v : Value) : bool :=
  match v with
  | None | Some JNull => false
  | Some _ => true
  end.

(** An array element on which the reads of line 52 do not throw:
    [a.giver] and [a.recipient] can be read from. *)
Definition well_formed (a : JSON) : bool :=
  match a with
  | JObj fields => readable (assoc "giver" fields) && readable (assoc "recipient" fields)
  | _ => false
  end.

(** [v.k] where it cannot throw: [undefined] when [v] has no such field. *)
Definition field (v : Value) (k : string) : Value :=
  match v with
  | Some (JObj fields) => assoc k fields
  | _ => None
  end.

(** A value the template literal can convert to text. *)
Definition printable (number_text : Q → string) (convert_error : string) (v : Value)
  : Prop :=
  ∃ s, interpolate number_text convert_error v = Normal s.

(** An element the loop builds a message from: [a.giver] and [a.recipient]
    can be read from, and the three values line 53 puts into the text can
    be converted. *)
Definition mailable (number_text : Q → string) (convert_error : string) (a : JSON)
  : Prop :=
  well_formed a = true
  ∧ printable number_text convert_error (field (field (Some a) "giver") "name")
  ∧ printable number_text convert_error (field (field (Some a) "recipient") "name")
  ∧ printable number_text convert_error (field (field (Some a) "recipient") "email").

(** The test of line 42 lets the handler go on. *)
Definition configured (env : Env) : bool :=
  str_truthy (MAILEROO_API_KEY env)
  && str_truthy (or_else (MAILEROO_API_URL env) (MAILEROO_URL env)).

(** [res.ok] of a response: the status is in the range 200-299. *)
Definition response_ok (r : Response) : bool := (200 <=? code r) && (code r <=? 299).


End Route.

(** ** The page component ([page.tsx] lines 17-19 and 53-165) *)

(** The state of [Home] (lines 54-61); [form_name] and [form_email] are the
    state variables [name] and [email] of the form. *)
Record Home := {
  form_name : string;
  form_email : string;
  participants : list Participant;
  assignments : option (list Assignment);
  ui : UiState;
  sendStatus : option string
}.

Definition initial : Home :=
  {| form_name := ""; form_email := ""; participants := []; assignments := None;
     ui := {| verification := None; encryptedTokens := None; error := None |};
     sendStatus := None |}.

Definition with_ui (u : UiState) (h : Home) : Home :=
  {| form_name := form_name h; form_email := form_email h;
     participants := participants h; assignments := assignments h;
     ui := u; sendStatus := sendStatus h |}.

Definition setName (v : string) (h : Home) : Home :=
  {| form_name := v; form_email := form_email h;
     participants := participants h; assignments := assignments h;
     ui := ui h; sendStatus := sendStatus h |}.

Definition setEmail (v : string) (h : Home) : Home :=
  {| form_name := form_name h; form_email := v;
     participants := participants h; assignments := assignments h;
     ui := ui h; sendStatus := sendStatus h |}.

Definition setParticipants (f : list Participant → list Participant) (h : Home) : Home :=
  {| form_name := form_name h; form_email := form_email h;
     participants := f (participants h); assignments := assignments h;
     ui := ui h; sendStatus := sendStatus h |}.

Definition setAssignments (a : option (list Assignment)) (h : Home) : Home :=
  {| form_name := form_name h; form_email := form_email h;
     participants := participants h; assignments := a;
     ui := ui h; sendStatus := sendStatus h |}.

Definition setSendStatus (v : option string) (h : Home) : Home :=
  {| form_name := form_name h; form_email := form_email h;
     participants := participants h; assignments := assignments h;
     ui := ui h; sendStatus := v |}.

Definition missing_fields : string := "Please provide both name and email.".
Definition too_few : string := "Add at least 2 participants to assign Santas.".
Definition sending : string := "Sending emails via server...".
Definition network_error : string :=
  "Network error while sending emails. Check the console for details.".

(** Line 80: [prev.filter((p) => p.id !== id)], then the assignments are
    dropped. *)
Definition removeParticipant (id0 : string) (h : Home) : Home :=
  setAssignments None (setParticipants (filter (λ p, id p ≠ id0)) h).

(** [JSON.stringify({ assignments })] of line 152, as the route's
    [req.json()] reads it back. *)
Definition participant_json (p : Participant) : Route.JSON :=
  Route.JObj [("id", Route.JStr (id p)); ("name", Route.JStr (name p));
              ("email", Route.JStr (email p))].

Definition assignment_json (a : Assignment) : Route.JSON :=
  Route.JObj [("giver", participant_json (giver a));
              ("recipient", participant_json (recipient a))].

Definition request_body (res : list Assignment) : Route.JSON :=
  Route.JObj [("assignments", Route.JArr (assignment_json <$> res))].

(** The text of a number inside a template literal, for the counts the
    route returns. *)
Definition digits (n : nat) : string := pretty n.

(** Lines 154-162: the status line for what [fetch] and [res.json()] came
    to; [Throws] is a request that failed or a reply that is no JSON. *)
Definition status_line (reply : Route.Completion Route.Response) : string :=
  match reply with
  | Route.Throws _ => network_error
  | Route.Normal r =>
      if Route.response_ok r then
        match Route.body r with
        | Route.SummaryBody success total _ =>
            "Sent: " +:+ digits success +:+ "/" +:+ digits total +:+ " emails"
        | Route.ErrorBody _ => "Sent: undefined/undefined emails"
        end
      else
        match Route.body r with
        | Route.ErrorBody e =>
            "Failed: " +:+ (if bool_decide (e = "") then "server error" else e)
        | Route.SummaryBody _ _ _ => "Failed: server error"
        end
  end.

(** Lines 145-163, up to the status line; the timer of line 164 is the
    event [clearSendStatus] below. *)
Definition sendEmails (reply : Route.Completion Route.Response) (h : Home) : Home :=
  match assignments h with
  | None => h
  | Some _ => setSendStatus (Some (status_line reply)) h
  end.

Definition clearSendStatus (h : Home) : Home := setSendStatus None h.

Section HomeHandlers.
(** The browser, [String.prototype.trim], and the text of a number in radix
    36 ([Number.prototype.toString(36)]). *)
Context {World Key : Type}.
Variable window : option (Window World Key).
Variable trim : string → string.
Variable toString36 : Sample → string.

(** Lines 17-19: [Math.random().toString(36).slice(2, 9)]. *)
Definition uid : Rand string :=
  r ← Math_random; mret (String.substring 2 7 (toString36 r)).

(** Lines 63-77. *)
Definition addParticipant (h : Home) : Rand Home :=
  let h := with_ui (setError None (ui h)) h in
  let n := trim (form_name h) in
  let em := trim (form_email h) in
  if bool_decide (n = "") || bool_decide (em = "")
  then mret (with_ui (setError (Some missing_fields) (ui h)) h)
  else
    i ← uid;
    let p := {| id := i; name := n; email := em |} in
    mret (setAssignments None (setEmail "" (setName ""
            (setParticipants (λ prev, prev ++ [p]) h)))).

(** Lines 84-96, with the token generation it starts run to its end. *)
Definition handleAssign (h : Home) (g : Rng) (w : World) : Home * Rng * World :=
  let h := with_ui (setError None (ui h)) h in
  if length (participants h) <? 2
  then (with_ui (setError (Some too_few) (ui h)) h, g, w)
  else
    let (res, g') := assignSecretSantas (participants h) g in
    let h := setAssignments (Some res) h in
    let h := with_ui (setVerification None (setEncryptedTokens None (ui h))) h in
    let (w', u) := createEncryptedTokensAndVerify window res (participants h) w (ui h) in
    (with_ui u h, g', w').

(** The button of lines 259-269: hide the tokens when they are shown, make
    them again otherwise. *)
Definition toggleTokens (h : Home) (w : World) : Home * World :=
  match encryptedTokens (ui h) with
  | Some _ => (with_ui (setEncryptedTokens None (ui h)) h, w)
  | None =>
      match assignments h with
      | Some res =>
          let (w', u) :=
            createEncryptedTokensAndVerify window res (participants h) w (ui h) in
          (with_ui u h, w')
      | None => (h, w)
      end
  end.

(** One event of the page, each handler run to its end before the next. *)
Inductive step : Home → Home → Prop :=
| step_name v h : step h (setName v h)
| step_email v h : step h (setEmail v h)
| step_add h g : step h (fst (addParticipant h g))
| step_remove i h : step h (removeParticipant i h)
| step_assign h g w : step h (fst (fst (handleAssign h g w)))
| step_toggle h w : step h (fst (toggleTokens h w))
| step_send reply h : step h (sendEmails reply h)
| step_timer h : step h (clearSendStatus h).

Inductive reachable : Home → Prop :=
| reachable_initial : reachable initial
| reachable_step h h' : reachable h → step h h' → reachable h'.
End HomeHandlers.

(** What holds of every state the page can reach. *)
Definition consistent (h : Home) : Prop :=
  ∀ res, assignments h = Some res →
    giver <$> res = participants h
    ∧ 2 ≤ length (participants h)
    ∧ verification (ui h) = Some (verify res (participants h))
    ∧ ∀ tokens, encryptedTokens (ui h) = Some tokens → length tokens = length res.

(** ** Properties of an Assignment Set *)

Definition unique_by_id (ps : list Participant) : Prop := NoDup (id <$> ps).

Definition no_self_assignment (res : list Assignment) : Prop :=
  Forall (λ a, id (giver a) ≠ id (recipient a)) res.

(** How often the id [x] occurs in a list of ids. *)
Definition occurrences (x : string) (ids : list string) : nat :=
  length (filter (λ y, y = x) ids).

(** Each participant occurs exactly once as a recipient. *)
Definition each_receives_once (ps : list Participant) (res : list Assignment) : Prop :=
  Forall (λ p, occurrences (id p) (id ∘ recipient <$> res) = 1) ps.

Global Instance unique_by_id_dec ps : Decision (unique_by_id ps).
Proof. unfold unique_by_id. apply _. Defined.

Global Instance no_self_assignment_dec res : Decision (no_self_assignment res).
Proof. unfold no_self_assignment. apply _. Defined.

Global Instance each_receives_once_dec ps res : Decision (each_receives_once ps res).
Proof. unfold each_receives_once. apply _. Defined.

(** A candidate ordering fails the check of lines 38-43: some index holds the
    same id in both arrays. *)
Definition collides (ps rs : list Participant) : Prop :=
  Exists (λ i, id (ps !!! i) = id (rs !!! i)) (seq 0 (length ps)).

(** Each of the next [attempts] shuffles of [ps] fails the check. *)
Fixpoint all_attempts_collide (attempts : nat) (ps : list Participant) (g : Rng) : Prop :=
  match attempts with
  | 0 => True
  | S k => collides ps (fst (shuffle ps g)) ∧ all_attempts_collide k ps (snd (shuffle ps g))
  end.

Global Instance collides_dec ps rs : Decision (collides ps rs).
Proof. unfold collides. apply _. Defined.

(** The same, as a test that evaluates. *)
Fixpoint all_attempts_collide_b (attempts : nat) (ps : list Participant) (g : Rng) : bool :=
  match attempts with
  | 0 => true
  | S k => bool_decide (collides ps (fst (shuffle ps g)))
           && all_attempts_collide_b k ps (snd (shuffle ps g))
  end.

(** ** Sample inputs *)

Definition half : Sample := {| num := 1; den := 2; sample_lt := le_n 2 |}.
Definition zero : Sample := {| num := 0; den := 1; sample_lt := le_n 1 |}.

Definition alice : Participant := {| id := "1"; name := "A"; email := "a@x.org" |}.
Definition bob : Participant := {| id := "2"; name := "B"; email := "b@x.org" |}.
Definition carol : Participant := {| id := "3"; name := "C"; email := "c@x.org" |}.

(** Two participants under one id. *)
Definition twin_a : Participant := {| id := "7"; name := "A"; email := "a@x.org" |}.
Definition twin_b : Participant := {| id := "7"; name := "B"; email := "b@x.org" |}.

Definition dave : Participant := {| id := ""; name := "D"; email := "d@x.org" |}.

(** A toy browser: the world is a tape of bytes to draw from, a key is one
    byte, and [encrypt] answers with the key, the data and the nonce, or
    rejects when there is no data. *)
Definition toy_subtle : SubtleCrypto (list byte) byte :=
  {| generateKey := λ w, (Some (hd x00 w), tl w);
     encrypt := λ iv key data w,
       (if decide (data = []) then None else Some (key :: data ++ iv), w) |}.

Definition toy_crypto : Crypto (list byte) byte :=
  {| random_byte := λ w, (hd x00 w, tl w); subtle := Some toy_subtle |}.

Definition toy_window : Window (list byte) byte := {| crypto := Some toy_crypto |}.

Definition fresh : UiState :=
  {| verification := None; encryptedTokens := None; error := None |}.

(** A toy server platform: V8's wording of the [TypeError], and a provider
    that accepts every message and counts them. *)
Definition toy_type_error (v : Route.Value) (k : string) : string :=
  "Cannot read properties of null (reading '" +:+ k +:+ "')".

Definition toy_number_text (q : Q) : string := "0".

Definition toy_convert_error : string := "Cannot convert object to primitive value".

Definition toy_parseFromString (s : string) : string * string := ("", s).

Definition toy_fetch (rq : Route.Request) (w : nat)
  : Route.Completion Route.ProviderReply * nat :=
  (Route.Normal {| Route.ok := true; Route.status := 200; Route.parsed := Route.JNull |}, S w).

Definition toy_POST := Route.POST toy_type_error toy_number_text toy_convert_error toy_parseFromString toy_fetch.

Definition toy_env : Route.Env :=
  {| Route.MAILEROO_API_KEY := Some "k"; Route.MAILEROO_API_URL := Some "https://mail.test/send";
     Route.MAILEROO_URL := None; Route.MAILEROO_FROM := None;
     Route.MAILEROO_FROM_ADDRESS := None; Route.MAILEROO_FROM_NAME := None |}.


(** Stand-ins for the page's platform in the examples: texts typed without
    surrounding white space, which [trim] returns as they are, and a
    made-up rendering of a number in radix 36. *)
Definition toy_trim (s : string) : string := s.

Definition toy_toString36 (r : Sample) : string :=
  "0." +:+ pretty (num r) +:+ "z" +:+ pretty (den r).

Definition home_one : Home :=
  fst (addParticipant toy_trim toy_toString36
         (setEmail "a@x.org" (setName "A" initial)) (λ _, half)).

Definition home_two : Home :=
  fst (addParticipant toy_trim toy_toString36
         (setEmail "b@x.org" (setName "B" home_one)) (λ _, zero)).

Definition home_assigned : Home :=
  fst (fst (handleAssign (Some toy_window) home_two (λ _, zero) [])).

Definition two_elements : list Route.JSON :=
  [ assignment_json {| giver := alice; recipient := bob |};
    assignment_json {| giver := bob; recipient := alice |} ].

(** An environment with a sender address, and one without an API key. *)
Definition elf_env : Route.Env :=
  {| Route.MAILEROO_API_KEY := Some "k"; Route.MAILEROO_API_URL := None;
     Route.MAILEROO_URL := Some "https://mail.test/send";
     Route.MAILEROO_FROM := Some "Santa <s@x.org>";
     Route.MAILEROO_FROM_ADDRESS := Some "elf@x.org";
     Route.MAILEROO_FROM_NAME := None |}.

Definition bare_env : Route.Env :=
  {| Route.MAILEROO_API_KEY := None; Route.MAILEROO_API_URL := Some "https://mail.test/send";
     Route.MAILEROO_URL := None; Route.MAILEROO_FROM := None;
     Route.MAILEROO_FROM_ADDRESS := None; Route.MAILEROO_FROM_NAME := None |}.

(** An element whose giver has an object with a field [toString] for a
    name, and one that has no recipient. *)
Definition odd_name_element : Route.JSON :=
  Route.JObj [("giver", Route.JObj [("name", Route.JObj [("toString", Route.JNum 1)]);
                                    ("email", Route.JStr "a@x.org")]);
              ("recipient", participant_json bob)].

Definition no_recipient_element : Route.JSON :=
  Route.JObj [("giver", Route.JStr "alice")].

(** A provider whose second request fails. *)
Definition flaky_fetch (rq : Route.Request) (w : nat)
  : Route.Completion Route.ProviderReply * nat :=
  if w =? 1 then (Route.Throws "fetch failed", S w)
  else (Route.Normal {| Route.ok := true; Route.status := 200;
                        Route.parsed := Route.JNull |}, S w).

Definition flaky_POST :=
  Route.POST toy_type_error toy_number_text toy_convert_error toy_parseFromString flaky_fetch.

Example btoa_Man : btoa "Man" = "TWFu" ∧ btoa "Ma" = "TWE=" ∧ btoa "M" = "TQ==".
Proof. by vm_compute. Qed.

Example toBase64_bytes :
  toBase64 [xff; xff; xff] = "////" ∧ toBase64 [x00] = "AA==" ∧ toBase64 [xfb; xef] = "++8=".
Proof. by vm_compute. Qed.

Example tokens_of_one :
  createEncryptedTokensAndVerify (Some toy_window)
    [ {| giver := alice; recipient := bob |} ] [alice; bob] [] fresh
  = ([], {| verification := Some {| derangement := true; bijection := false |};
            encryptedTokens := Some ["AAAAAAAAAAAAAAAAADIAAAAAAAAAAAAAAAA="];
            error := None |}).
Proof. vm_compute. reflexivity. Qed.

Example shuffle_zero :
  fst (shuffle [alice; bob; carol] (λ _, zero)) = [bob; carol; alice].
Proof. reflexivity. Qed.

Example shuffle_half :
  fst (shuffle [alice; bob; carol] (λ _, half)) = [alice; carol; bob].
Proof. reflexivity. Qed.

Example assign_zero :
  fst (assignSecretSantas [alice; bob; carol] (λ _, zero))
  = [ {| giver := alice; recipient := bob |};
      {| giver := bob; recipient := carol |};
      {| giver := carol; recipient := alice |} ].
Proof. vm_compute. reflexivity. Qed.

(** ** Facts about [shuffle] *)

Lemma rand_bind_run {A B} (m : Rand A) (k : A → Rand B) (g : Rng) :
  (m ≫= k) g = k (fst (m g)) (snd (m g)).
Proof. unfold mbind, Rand_bind. by destruct (m g). Qed.

Lemma rand_ret_run {A} (x : A) (g : Rng) : mret (M := Rand) x g = (x, g).
Proof. reflexivity. Qed.

Ltac rand_simpl := rewrite ?rand_bind_run, ?rand_ret_run; cbn [fst snd].

Lemma floor_mul_lt (r : Sample) (m : nat) : 0 < m → floor_mul r m < m.
Proof.
  intros Hm. unfold floor_mul. pose proof (sample_lt r) as Hr.
  apply Nat.Div0.div_lt_upper_bound. nia.
Qed.

Lemma insert_head_Permutation {T} (a : list T) (j : nat) (x y : T) :
  a !! j = Some y → y :: <[j := x]> a ≡ₚ x :: a.
Proof.
  revert j. induction a as [|z a IH]; intros [|j] Hj; simplify_eq/=.
  - apply perm_swap.
  - rewrite (perm_swap z y), (IH _ Hj). apply perm_swap.
Qed.

Lemma swap_Permutation {T} (a : list T) (i j : nat) : swap a i j ≡ₚ a.
Proof.
  unfold swap. destruct (a !! i) as [x|] eqn:Hi; [|done].
  destruct (a !! j) as [y|] eqn:Hj; [|done].
  revert i j Hi Hj. induction a as [|z a IH]; intros [|i] [|j] Hi Hj; simplify_eq/=.
  - done.
  - by apply insert_head_Permutation.
  - by apply insert_head_Permutation.
  - by rewrite IH.
Qed.

Lemma shuffle_loop_Permutation {T} (i : nat) (a : list T) (g : Rng) :
  fst (shuffle_loop i a g) ≡ₚ a.
Proof.
  revert a g. induction i as [|i IH]; intros a g; [done|].
  cbn [shuffle_loop]. rand_simpl. rewrite IH. apply swap_Permutation.
Qed.

Lemma shuffle_Permutation {T} (arr : list T) (g : Rng) : fst (shuffle arr g) ≡ₚ arr.
Proof. apply shuffle_loop_Permutation. Qed.

Lemma shuffle_length {T} (arr : list T) (g : Rng) :
  length (fst (shuffle arr g)) = length arr.
Proof. by rewrite shuffle_Permutation. Qed.

(** The two slots a step of the loop swaps exist: [j <= i < a.length]. *)
Lemma swap_in_range {T} (a : list T) (r : Sample) (i : nat) :
  i < length a → is_Some (a !! i) ∧ is_Some (a !! floor_mul r (i + 1)).
Proof.
  intros Hi. pose proof (floor_mul_lt r (i + 1)) as Hj.
  split; apply lookup_lt_is_Some; lia.
Qed.

(** ** Facts about the assignment engine *)

Lemma no_collision_spec (ps rs : list Participant) (n : nat) :
  no_collision ps rs n = true ↔ ∀ i, i < n → id (ps !!! i) ≠ id (rs !!! i).
Proof.
  unfold no_collision. rewrite forallb_forall. split.
  - intros H i Hi. specialize (H i).
    rewrite in_seq, negb_true_iff, bool_decide_eq_false in H. apply H. lia.
  - intros H i Hi. apply in_seq in Hi.
    rewrite negb_true_iff, bool_decide_eq_false. apply H. lia.
Qed.

Lemma pair_up_givers (ps rs : list Participant) : giver <$> pair_up ps rs = ps.
Proof.
  apply list_eq. intros i. unfold pair_up.
  rewrite list_lookup_fmap, list_lookup_imap. by destruct (ps !! i).
Qed.

(** Every [recipients[i]] that [pair_up] reads is an element of
    [recipients] when the two arrays are as long as each other. *)
Lemma pair_up_lookup (ps rs : list Participant) (i : nat) (a : Assignment) :
  length rs = length ps → pair_up ps rs !! i = Some a →
  ps !! i = Some (giver a) ∧ rs !! i = Some (recipient a).
Proof.
  intros Hlen. unfold pair_up. rewrite list_lookup_imap.
  destruct (ps !! i) as [p|] eqn:Hp; [|done]. intros [= <-]. cbn. split; [done|].
  apply list_lookup_lookup_total_lt. rewrite Hlen. by eapply lookup_lt_Some.
Qed.

Lemma pair_up_recipients (ps rs : list Participant) :
  length rs = length ps → recipient <$> pair_up ps rs = rs.
Proof.
  intros Hlen. apply list_eq. intros i. rewrite list_lookup_fmap.
  destruct (pair_up ps rs !! i) as [a|] eqn:Ha.
  - apply pair_up_lookup in Ha as [_ ->]; done.
  - cbn. symmetry. apply lookup_ge_None. apply lookup_ge_None in Ha.
    unfold pair_up in Ha. rewrite length_imap in Ha. lia.
Qed.

Lemma pair_up_no_self (ps rs : list Participant) :
  length rs = length ps → no_collision ps rs (length ps) = true →
  no_self_assignment (pair_up ps rs).
Proof.
  intros Hlen Hok. apply Forall_lookup. intros i a Ha.
  destruct (pair_up_lookup _ _ _ _ Hlen Ha) as [Hg Hr].
  rewrite no_collision_spec in Hok.
  specialize (Hok i (lookup_lt_Some _ _ _ Hg)).
  by rewrite (list_lookup_total_correct _ _ _ Hg),
             (list_lookup_total_correct _ _ _ Hr) in Hok.
Qed.

(** What an attempt loop that returns has returned. *)
Lemma search_Some (k : nat) (ps : list Participant) (g : Rng) (res : list Assignment) :
  fst (search k ps g) = Some res →
  ∃ rs, rs ≡ₚ ps ∧ no_collision ps rs (length ps) = true ∧ res = pair_up ps rs.
Proof.
  revert g. induction k as [|k IH]; intros g; [done|].
  cbn [search]. rand_simpl.
  destruct (no_collision ps _ (length ps)) eqn:Hok.
  - intros [= <-]. eexists. split; [apply shuffle_Permutation|done].
  - apply IH.
Qed.

Lemma rotate_Permutation {T} (n : nat) (l : list T) : rotate n l ≡ₚ l.
Proof.
  unfold rotate. rewrite Permutation_app_comm. by rewrite take_drop.
Qed.

Lemma rotation_givers (ps : list Participant) : giver <$> rotation ps = ps.
Proof.
  apply list_eq. intros i. unfold rotation.
  rewrite list_lookup_fmap, list_lookup_imap. by destruct (ps !! i).
Qed.

Lemma rotation_lookup (ps : list Participant) (i : nat) (a : Assignment) :
  rotation ps !! i = Some a →
  ps !! i = Some (giver a) ∧ ps !! ((i + 1) mod length ps) = Some (recipient a).
Proof.
  unfold rotation. rewrite list_lookup_imap.
  destruct (ps !! i) as [p|] eqn:Hp; [|done]. intros [= <-]. cbn. split; [done|].
  apply list_lookup_lookup_total_lt, Nat.mod_upper_bound.
  apply lookup_lt_Some in Hp. lia.
Qed.

Lemma rotation_recipients (ps : list Participant) :
  recipient <$> rotation ps = rotate 1 ps.
Proof.
  apply list_eq. intros i. rewrite list_lookup_fmap.
  destruct (rotation ps !! i) as [a|] eqn:Ha.
  - pose proof (lookup_lt_Some _ _ _ Ha) as Hi.
    unfold rotation in Hi. rewrite length_imap in Hi.
    apply rotation_lookup in Ha as [_ Hr]. cbn.
    rewrite lookup_rotate_r by done. unfold rotate_nat_add.
    rewrite <- Hr. f_equal. rewrite Z2Nat.inj_mod by lia.
    rewrite Nat2Z.id. f_equal. lia.
  - cbn. symmetry. apply lookup_ge_None. apply lookup_ge_None in Ha.
    unfold rotation in Ha. rewrite length_imap in Ha. by rewrite length_rotate.
Qed.

Lemma rotation_no_self (ps : list Participant) :
  unique_by_id ps → 2 ≤ length ps → no_self_assignment (rotation ps).
Proof.
  intros Hu Hn. apply Forall_lookup. intros i a Ha.
  apply rotation_lookup in Ha as [Hg Hr]. intros Heq.
  pose proof (lookup_lt_Some _ _ _ Hg) as Hi.
  assert (i = (i + 1) mod length ps) as Hbad.
  { apply (NoDup_lookup _ _ _ (id (giver a)) Hu); rewrite list_lookup_fmap.
    - by rewrite Hg.
    - by rewrite Hr, Heq. }
  destruct (decide (i + 1 = length ps)) as [E|E].
  - rewrite E, Nat.Div0.mod_same in Hbad. lia.
  - rewrite Nat.mod_small in Hbad by lia. lia.
Qed.

Lemma assign_small (ps : list Participant) (g : Rng) :
  length ps < 2 → assignSecretSantas ps g = ([], g).
Proof.
  intros Hn. unfold assignSecretSantas.
  by destruct (Nat.ltb_spec (length ps) 2); [|lia].
Qed.

Lemma assign_large (ps : list Participant) (g : Rng) :
  2 ≤ length ps →
  fst (assignSecretSantas ps g) = default (rotation ps) (fst (search 1000 ps g)).
Proof.
  intros Hn. unfold assignSecretSantas.
  destruct (Nat.ltb_spec (length ps) 2); [lia|].
  rand_simpl. by destruct (fst (search 1000 ps g)).
Qed.

(** Either an accepted candidate or the rotation. *)
Lemma assign_cases (ps : list Participant) (g : Rng) :
  2 ≤ length ps →
  (∃ rs, rs ≡ₚ ps ∧ no_collision ps rs (length ps) = true
         ∧ fst (assignSecretSantas ps g) = pair_up ps rs)
  ∨ (fst (search 1000 ps g) = None ∧ fst (assignSecretSantas ps g) = rotation ps).
Proof.
  intros Hn. rewrite assign_large by done.
  destruct (fst (search 1000 ps g)) as [res|] eqn:Hs; [left|by right].
  apply search_Some in Hs as (rs & ? & ? & ->). by exists rs.
Qed.

Lemma assign_givers (ps : list Participant) (g : Rng) :
  2 ≤ length ps → giver <$> fst (assignSecretSantas ps g) = ps.
Proof.
  intros Hn. destruct (assign_cases ps g Hn) as [(rs & _ & _ & ->)|[_ ->]].
  - apply pair_up_givers.
  - apply rotation_givers.
Qed.

Lemma assign_recipients (ps : list Participant) (g : Rng) :
  2 ≤ length ps → recipient <$> fst (assignSecretSantas ps g) ≡ₚ ps.
Proof.
  intros Hn. destruct (assign_cases ps g Hn) as [(rs & Hp & _ & ->)|[_ ->]].
  - rewrite pair_up_recipients; [done|]. by rewrite Hp.
  - rewrite rotation_recipients. apply rotate_Permutation.
Qed.

(** ** Counting ids *)

Lemma occurrences_cons (x y : string) (ids : list string) :
  occurrences x (y :: ids) = (if decide (y = x) then 1 else 0) + occurrences x ids.
Proof. unfold occurrences. rewrite filter_cons. by destruct (decide (y = x)). Qed.

Lemma occurrences_0 (x : string) (ids : list string) :
  occurrences x ids = 0 ↔ x ∉ ids.
Proof.
  induction ids as [|y ids IH]; [split; [intros _; apply not_elem_of_nil|done]|].
  rewrite occurrences_cons, not_elem_of_cons.
  destruct (decide (y = x)) as [->|Hne].
  - split; [lia|]. by intros [? _].
  - rewrite IH. split; [by split; [intros ->|]|by intros [_ ?]].
Qed.

Lemma occurrences_NoDup (ids : list string) :
  NoDup ids ↔ ∀ x, x ∈ ids → occurrences x ids = 1.
Proof.
  induction ids as [|y ids IH].
  - split; [by intros _ x ?%elem_of_nil|constructor].
  - rewrite NoDup_cons, IH. split.
    + intros [Hy H] x Hx. rewrite occurrences_cons.
      destruct (decide (y = x)) as [->|Hne].
      * by rewrite (proj2 (occurrences_0 _ _) Hy).
      * apply H. apply elem_of_cons in Hx as [->|Hx]; done.
    + intros H.
      assert (y ∉ ids) as Hy.
      { apply occurrences_0. specialize (H y (list_elem_of_here _ _)).
        rewrite occurrences_cons, decide_True in H by done. lia. }
      split; [done|]. intros x Hx.
      specialize (H x (list_elem_of_further _ _ _ Hx)).
      rewrite occurrences_cons, decide_False in H by (by intros ->). done.
Qed.

Lemma occurrences_Permutation (x : string) (l k : list string) :
  l ≡ₚ k → occurrences x l = occurrences x k.
Proof. intros H. unfold occurrences. by rewrite H. Qed.

Lemma each_receives_once_NoDup (ps : list Participant) (res : list Assignment) :
  id ∘ recipient <$> res ≡ₚ id <$> ps →
  each_receives_once ps res ↔ unique_by_id ps.
Proof.
  intros Hp. unfold each_receives_once, unique_by_id.
  rewrite occurrences_NoDup, Forall_forall. split.
  - intros H x [p [-> Hin]]%list_elem_of_fmap.
    rewrite <- (occurrences_Permutation _ _ _ Hp). by apply H.
  - intros H p Hin. rewrite (occurrences_Permutation _ _ _ Hp).
    apply H, list_elem_of_fmap. eauto.
Qed.

Lemma recipient_ids_Permutation (ps : list Participant) (res : list Assignment) :
  recipient <$> res ≡ₚ ps → id ∘ recipient <$> res ≡ₚ id <$> ps.
Proof. intros H. by rewrite list_fmap_compose, H. Qed.

(** ** The assignment engine: main results *)

(** Settles a decidable statement about sample inputs by evaluation. *)
Ltac by_compute := refine (bool_decide_unpack _ _); vm_compute; exact I.

(** C1. For a participant sequence that is unique by id and has at least two
    participants, every assignment returned by [assignSecretSantas] has
    [giver.id] different from [recipient.id], whatever [Math.random]
    returns. *)
Theorem assign_no_self_assignment (ps : list Participant) (g : Rng) :
  unique_by_id ps → 2 ≤ length ps →
  no_self_assignment (fst (assignSecretSantas ps g)).
Proof.
  intros Hu Hn. destruct (assign_cases ps g Hn) as [(rs & Hp & Hok & ->)|[_ ->]].
  - apply pair_up_no_self; [by rewrite Hp|done].
  - by apply rotation_no_self.
Qed.

Lemma assign_no_self_assignment_witness :
  no_self_assignment (fst (assignSecretSantas [alice; bob; carol] (λ _, half))).
Proof.
  apply assign_no_self_assignment.
  - by_compute.
  - simpl. lia.
Defined.

(** C2. For a participant sequence that is unique by id and has at least two
    participants, the recipients returned by [assignSecretSantas] are a
    permutation of the participants: no recipient id occurs twice, and the
    id of each participant occurs exactly once among the recipient ids. *)
Theorem assign_recipients_bijection (ps : list Participant) (g : Rng) :
  unique_by_id ps → 2 ≤ length ps →
  recipient <$> fst (assignSecretSantas ps g) ≡ₚ ps
  ∧ NoDup (id ∘ recipient <$> fst (assignSecretSantas ps g))
  ∧ each_receives_once ps (fst (assignSecretSantas ps g)).
Proof.
  intros Hu Hn. pose proof (assign_recipients ps g Hn) as Hp.
  pose proof (recipient_ids_Permutation _ _ Hp) as Hids.
  split; [done|]. split.
  - by rewrite Hids.
  - by apply each_receives_once_NoDup.
Qed.

Lemma assign_recipients_bijection_witness :
  recipient <$> fst (assignSecretSantas [alice; bob; carol] (λ _, zero))
    ≡ₚ [alice; bob; carol]
  ∧ NoDup (id ∘ recipient <$> fst (assignSecretSantas [alice; bob; carol] (λ _, zero)))
  ∧ each_receives_once [alice; bob; carol]
      (fst (assignSecretSantas [alice; bob; carol] (λ _, zero))).
Proof.
  apply assign_recipients_bijection.
  - by_compute.
  - simpl. lia.
Defined.

Lemma all_attempts_collide_b_true (k : nat) (ps : list Participant) (g : Rng) :
  all_attempts_collide_b k ps g = true → all_attempts_collide k ps g.
Proof.
  revert g. induction k as [|k IH]; intros g; [done|]. cbn.
  rewrite andb_true_iff, bool_decide_eq_true. intros [? ?]. split; [done|by apply IH].
Qed.

Lemma search_None (k : nat) (ps : list Participant) (g : Rng) :
  all_attempts_collide k ps g → fst (search k ps g) = None.
Proof.
  revert g. induction k as [|k IH]; intros g; [done|].
  cbn [search all_attempts_collide]. intros [Hc Hrest]. rand_simpl.
  destruct (no_collision ps _ (length ps)) eqn:Hok; [|by apply IH].
  rewrite no_collision_spec in Hok. unfold collides in Hc.
  apply Exists_exists in Hc as (i & Hi & Heq).
  apply elem_of_seq in Hi. destruct (Hok i); [lia|done].
Qed.

(** C3. When each of the 1000 shuffles fails the derangement check,
    [assignSecretSantas] returns the rotation, whose assignment at index [i]
    pairs the participant at [i] with the participant at [(i+1) mod n]; for a
    sequence that is unique by id with [n >= 2] the rotation has no
    self-assignment and its recipients are a permutation of the participants,
    each id received exactly once. *)
Theorem fallback_rotation (ps : list Participant) (g : Rng) :
  2 ≤ length ps →
  (all_attempts_collide 1000 ps g → fst (assignSecretSantas ps g) = rotation ps)
  ∧ (∀ i p, ps !! i = Some p →
       rotation ps !! i
       = Some {| giver := p; recipient := ps !!! ((i + 1) mod length ps) |}
       ∧ ps !! ((i + 1) mod length ps) = Some (ps !!! ((i + 1) mod length ps)))
  ∧ (unique_by_id ps →
       no_self_assignment (rotation ps)
       ∧ recipient <$> rotation ps ≡ₚ ps
       ∧ each_receives_once ps (rotation ps)).
Proof.
  intros Hn.
  assert (recipient <$> rotation ps ≡ₚ ps) as Hp.
  { rewrite rotation_recipients. apply rotate_Permutation. }
  split; [|split].
  - intros Hall. rewrite assign_large by done. by rewrite search_None.
  - intros i p Hi. split.
    + unfold rotation. by rewrite list_lookup_imap, Hi.
    + apply list_lookup_lookup_total_lt, Nat.mod_upper_bound. lia.
  - intros Hu. split; [by apply rotation_no_self|]. split; [done|].
    apply each_receives_once_NoDup; [|done]. by apply recipient_ids_Permutation.
Qed.

Lemma fallback_rotation_witness :
  fst (assignSecretSantas [alice; bob; carol]
         (λ _, {| num := 3; den := 4; sample_lt := le_n 4 |}))
  = rotation [alice; bob; carol]
  ∧ rotation [alice; bob; carol]
    = [ {| giver := alice; recipient := bob |};
        {| giver := bob; recipient := carol |};
        {| giver := carol; recipient := alice |} ]
  ∧ no_self_assignment (rotation [alice; bob; carol])
  ∧ recipient <$> rotation [alice; bob; carol] ≡ₚ [alice; bob; carol]
  ∧ each_receives_once [alice; bob; carol] (rotation [alice; bob; carol]).
Proof.
  destruct (fallback_rotation [alice; bob; carol]
              (λ _, {| num := 3; den := 4; sample_lt := le_n 4 |}))
    as (Hrot & _ & Hprops).
  - simpl. lia.
  - split; [|split; [reflexivity|]].
    + apply Hrot, all_attempts_collide_b_true. vm_compute. reflexivity.
    + apply Hprops. by_compute.
Defined.

(** C4. [assignSecretSantas] returns exactly [n] assignments for a sequence
    of [n >= 2] participants and none for a shorter one, and for [n >= 2]
    the giver of the assignment at index [i] is the participant at index
    [i]. *)
Theorem assign_shape (ps : list Participant) (g : Rng) :
  length (fst (assignSecretSantas ps g)) = (if decide (2 ≤ length ps) then length ps else 0)
  ∧ giver <$> fst (assignSecretSantas ps g) = (if decide (2 ≤ length ps) then ps else [])
  ∧ ∀ i a, fst (assignSecretSantas ps g) !! i = Some a → ps !! i = Some (giver a).
Proof.
  destruct (decide (2 ≤ length ps)) as [Hn|Hn].
  - pose proof (assign_givers ps g Hn) as Hg. split; [|split; [done|]].
    + by rewrite <- Hg at 2; rewrite length_fmap.
    + intros i a Ha. rewrite <- Hg at 1. by rewrite list_lookup_fmap, Ha.
  - rewrite assign_small by lia. done.
Qed.

(** C9, as claimed: input with duplicate ids is refused with an invalid-input
    error and never answered with a set that breaks the derangement or the
    bijection property. The engine has no such check: on two participants
    that share the id 7 it returns the rotation, in which each giver has the
    id of its recipient and the id 7 is received twice. *)
Lemma duplicate_ids_accepted :
  ¬ unique_by_id [twin_a; twin_b]
  ∧ fst (assignSecretSantas [twin_a; twin_b] (λ _, zero))
    = [ {| giver := twin_a; recipient := twin_b |};
        {| giver := twin_b; recipient := twin_a |} ]
  ∧ ¬ no_self_assignment (fst (assignSecretSantas [twin_a; twin_b] (λ _, zero)))
  ∧ ¬ each_receives_once [twin_a; twin_b]
        (fst (assignSecretSantas [twin_a; twin_b] (λ _, zero))).
Proof.
  split; [by_compute|]. split; [vm_compute; reflexivity|]. split; by_compute.
Qed.

Lemma not_unique_length (ps : list Participant) : ¬ unique_by_id ps → 2 ≤ length ps.
Proof.
  intros H. destruct ps as [|p [|q ps]]; cbn; [| |lia].
  - destruct H. constructor.
  - destruct H. apply NoDup_singleton.
Qed.

(** C9, amended. [assignSecretSantas] does not validate its input and has no
    error result: given participants with duplicate ids it returns one
    assignment per participant, givers in input order and recipients a
    permutation of the participants, and that set is not a bijection by id
    (it is not the case that every participant's id is received exactly
    once). *)
Theorem duplicate_ids_not_rejected (ps : list Participant) (g : Rng) :
  ¬ unique_by_id ps →
  length (fst (assignSecretSantas ps g)) = length ps
  ∧ giver <$> fst (assignSecretSantas ps g) = ps
  ∧ recipient <$> fst (assignSecretSantas ps g) ≡ₚ ps
  ∧ ¬ each_receives_once ps (fst (assignSecretSantas ps g)).
Proof.
  intros Hdup. pose proof (not_unique_length ps Hdup) as Hn.
  pose proof (assign_givers ps g Hn) as Hg.
  pose proof (assign_recipients ps g Hn) as Hp.
  split; [|split; [done|split; [done|]]].
  - by rewrite <- Hg at 2; rewrite length_fmap.
  - rewrite each_receives_once_NoDup; [done|]. by apply recipient_ids_Permutation.
Qed.

Lemma duplicate_ids_not_rejected_witness :
  length (fst (assignSecretSantas [twin_a; twin_b; carol] (λ _, half))) = 3
  ∧ giver <$> fst (assignSecretSantas [twin_a; twin_b; carol] (λ _, half))
    = [twin_a; twin_b; carol]
  ∧ recipient <$> fst (assignSecretSantas [twin_a; twin_b; carol] (λ _, half))
    ≡ₚ [twin_a; twin_b; carol]
  ∧ ¬ each_receives_once [twin_a; twin_b; carol]
        (fst (assignSecretSantas [twin_a; twin_b; carol] (λ _, half))).
Proof.
  apply (duplicate_ids_not_rejected [twin_a; twin_b; carol]). by_compute.
Defined.

(** ** The verification of lines 101-104 *)

Lemma verify_derangement (res : list Assignment) (parts : list Participant) :
  derangement (verify res parts) = true ↔ no_self_assignment res.
Proof.
  unfold verify, no_self_assignment. cbn. rewrite forallb_forall, Forall_forall.
  split; intros H a Ha.
  - apply list_elem_of_In, H in Ha. by rewrite negb_true_iff, bool_decide_eq_false in Ha.
  - rewrite negb_true_iff, bool_decide_eq_false. by apply H, list_elem_of_In.
Qed.

Lemma size_list_to_set_le (l : list string) :
  size (list_to_set l : gset string) ≤ length l.
Proof.
  induction l as [|x l IH]; cbn; [by rewrite size_empty|].
  rewrite size_union_alt, size_singleton.
  assert (size ((list_to_set l : gset string) ∖ {[x]}) ≤ size (list_to_set l : gset string))
    by (apply subseteq_size; set_solver).
  lia.
Qed.

Lemma size_list_to_set_NoDup (l : list string) :
  size (list_to_set l : gset string) = length l ↔ NoDup l.
Proof.
  split; [|apply size_list_to_set].
  induction l as [|x l IH]; [constructor|]. cbn. intros Hs.
  pose proof (size_list_to_set_le l) as Hle.
  destruct (decide (x ∈ l)) as [Hin|Hin].
  - assert ({[x]} ∪ list_to_set l = (list_to_set l : gset string)) as E by set_solver.
    rewrite E in Hs. lia.
  - rewrite size_union, size_singleton in Hs by set_solver.
    constructor; [done|]. apply IH. lia.
Qed.

Lemma size_list_to_set_distinct (l : list string) :
  size (list_to_set l : gset string) = length (remove_dups l).
Proof.
  rewrite <- (size_list_to_set (C := gset string) (remove_dups l))
    by apply NoDup_remove_dups.
  f_equal. apply set_eq. intros x.
  by rewrite !elem_of_list_to_set, elem_of_remove_dups.
Qed.

(** C5, as claimed: for corrupted sets too, [bijection] is true exactly when
    each participant occurs exactly once as a recipient. With the
    participants alice and bob and the set alice -> carol, bob -> alice
    (carol takes no part) the two distinct recipient ids make [bijection]
    true although bob receives nothing. *)
Lemma verify_bijection_outsider :
  bijection (verify [ {| giver := alice; recipient := carol |};
                      {| giver := bob; recipient := alice |} ] [alice; bob]) = true
  ∧ ¬ each_receives_once [alice; bob]
        [ {| giver := alice; recipient := carol |};
          {| giver := bob; recipient := alice |} ].
Proof. split; [vm_compute; reflexivity|by_compute]. Qed.

(** C5, amended. [derangement] is true exactly when every assignment has
    [giver.id] different from [recipient.id], and [bijection] is true exactly
    when the number of distinct recipient ids equals the participant count:
    both for every Assignment Set and participant sequence. For a set with
    one assignment per participant whose recipient ids are all ids of
    participants (self-assigned pairs and duplicate recipients included),
    [bijection] is true exactly when each participant occurs exactly once as
    a recipient. *)
Theorem verify_agrees (res : list Assignment) (parts : list Participant) :
  (derangement (verify res parts) = true ↔ no_self_assignment res)
  ∧ (bijection (verify res parts) = true
     ↔ length (remove_dups (id ∘ recipient <$> res)) = length parts)
  ∧ (length res = length parts →
     Forall (λ a, id (recipient a) ∈ id <$> parts) res →
     (bijection (verify res parts) = true ↔ each_receives_once parts res)).
Proof.
  split; [apply verify_derangement|].
  unfold verify. cbn [bijection]. rewrite bool_decide_eq_true.
  change ((λ a, id (recipient a)) <$> res) with (id ∘ recipient <$> res).
  split; [by rewrite size_list_to_set_distinct|].
  intros Hlen Hsub.
  assert (length (id ∘ recipient <$> res) = length parts) as Hlen'
    by (by rewrite length_fmap).
  assert (∀ x, x ∈ id ∘ recipient <$> res → x ∈ id <$> parts) as Hsub'.
  { rewrite Forall_forall in Hsub.
    intros x [a [-> Ha]]%list_elem_of_fmap. by apply Hsub. }
  rewrite <- Hlen', size_list_to_set_NoDup. split.
  - intros Hnd.
    assert (id ∘ recipient <$> res ≡ₚ id <$> parts) as Hp.
    { apply submseteq_length_Permutation; [by apply NoDup_submseteq|].
      rewrite !length_fmap. lia. }
    apply each_receives_once_NoDup; [done|].
    unfold unique_by_id. by rewrite <- Hp.
  - intros Hall. apply occurrences_NoDup. intros x Hx.
    apply Hsub' in Hx as [p [-> Hp]]%list_elem_of_fmap.
    unfold each_receives_once in Hall. rewrite Forall_forall in Hall. by apply Hall.
Qed.

Lemma verify_agrees_witness :
  (derangement (verify [ {| giver := alice; recipient := alice |};
                         {| giver := bob; recipient := alice |} ] [alice; bob]) = true
   ↔ no_self_assignment [ {| giver := alice; recipient := alice |};
                          {| giver := bob; recipient := alice |} ])
  ∧ (bijection (verify [ {| giver := alice; recipient := alice |};
                         {| giver := bob; recipient := alice |} ] [alice; bob]) = true
     ↔ length (remove_dups (id ∘ recipient <$>
                 [ {| giver := alice; recipient := alice |};
                   {| giver := bob; recipient := alice |} ])) = length [alice; bob])
  ∧ (bijection (verify [ {| giver := alice; recipient := alice |};
                         {| giver := bob; recipient := alice |} ] [alice; bob]) = true
     ↔ each_receives_once [alice; bob]
         [ {| giver := alice; recipient := alice |};
           {| giver := bob; recipient := alice |} ]).
Proof.
  destruct (verify_agrees [ {| giver := alice; recipient := alice |};
                            {| giver := bob; recipient := alice |} ] [alice; bob])
    as (Hd & Hcount & Hground).
  split; [exact Hd|]. split; [exact Hcount|]. apply Hground.
  - reflexivity.
  - by_compute.
Defined.

(** ** [toBase64] loses nothing *)

Lemma b64_digits_distinct :
  Forall (λ i, Forall (λ j, b64_digit (N.of_nat i) = b64_digit (N.of_nat j) → i = j)
                      (seq 0 64)
               ∧ b64_digit (N.of_nat i) ≠ "="%char) (seq 0 64).
Proof. by_compute. Qed.

Lemma b64_digit_inj (a b : N) :
  (a < 64)%N → (b < 64)%N → b64_digit a = b64_digit b → a = b.
Proof.
  intros Ha Hb Heq. pose proof b64_digits_distinct as H.
  rewrite Forall_forall in H. destruct (H (N.to_nat a)) as [H' _].
  { apply elem_of_seq. lia. }
  rewrite Forall_forall in H'. specialize (H' (N.to_nat b)).
  rewrite !N2Nat.id in H'. apply N2Nat.inj, H'; [|done]. apply elem_of_seq. lia.
Qed.

Lemma b64_digit_not_pad (a : N) : (a < 64)%N → b64_digit a ≠ "="%char.
Proof.
  intros Ha. pose proof b64_digits_distinct as H.
  rewrite Forall_forall in H. destruct (H (N.to_nat a)) as [_ H'].
  { apply elem_of_seq. lia. }
  by rewrite N2Nat.id in H'.
Qed.

(** The 24-bit group of three characters, and the four digits of a group. *)
Lemma group_digits_inj (n m : N) :
  (n < 16777216)%N → (m < 16777216)%N →
  (n / 262144 = m / 262144)%N → (n / 4096 mod 64 = m / 4096 mod 64)%N →
  (n / 64 mod 64 = m / 64 mod 64)%N → (n mod 64 = m mod 64)%N → n = m.
Proof.
  intros Hn Hm H0 H1 H2 H3.
  rewrite (N.div_mod n 64), (N.div_mod m 64), H3 by done. f_equal. f_equal.
  rewrite (N.div_mod (n / 64) 64), (N.div_mod (m / 64) 64), H2 by done. f_equal. f_equal.
  rewrite !N.Div0.div_div. change (64 * 64)%N with 4096%N.
  rewrite (N.div_mod (n / 4096) 64), (N.div_mod (m / 4096) 64), H1 by done.
  f_equal. f_equal. rewrite !N.Div0.div_div. exact H0.
Qed.

Lemma group_bound (c0 c1 c2 : ascii) :
  (N_of_ascii c0 * 65536 + N_of_ascii c1 * 256 + N_of_ascii c2 < 16777216)%N.
Proof.
  pose proof (N_ascii_bounded c0). pose proof (N_ascii_bounded c1).
  pose proof (N_ascii_bounded c2). lia.
Qed.

Lemma group_inj (c0 c1 c2 d0 d1 d2 : ascii) :
  (N_of_ascii c0 * 65536 + N_of_ascii c1 * 256 + N_of_ascii c2
   = N_of_ascii d0 * 65536 + N_of_ascii d1 * 256 + N_of_ascii d2)%N →
  c0 = d0 ∧ c1 = d1 ∧ c2 = d2.
Proof.
  intros H.
  pose proof (N_ascii_bounded c0). pose proof (N_ascii_bounded c1).
  pose proof (N_ascii_bounded c2). pose proof (N_ascii_bounded d0).
  pose proof (N_ascii_bounded d1). pose proof (N_ascii_bounded d2).
  assert (N_of_ascii c0 = N_of_ascii d0 ∧ N_of_ascii c1 = N_of_ascii d1
          ∧ N_of_ascii c2 = N_of_ascii d2) as (E0 & E1 & E2) by lia.
  rewrite <- (ascii_N_embedding c0), <- (ascii_N_embedding c1), <- (ascii_N_embedding c2).
  rewrite E0, E1, E2. by rewrite !ascii_N_embedding.
Qed.

Lemma digit_lt_div (n : N) : (n < 16777216)%N → (n / 262144 < 64)%N.
Proof. intros H. apply N.Div0.div_lt_upper_bound. lia. Qed.

Lemma digit_lt_mod (n : N) : (n mod 64 < 64)%N.
Proof. apply N.mod_lt. lia. Qed.

Lemma btoa_1 (c0 : ascii) :
  btoa (String c0 EmptyString)
  = String (b64_digit (N_of_ascii c0 * 65536 / 262144))
      (String (b64_digit (N_of_ascii c0 * 65536 / 4096 mod 64)) "==").
Proof. reflexivity. Qed.

Lemma btoa_2 (c0 c1 : ascii) :
  btoa (String c0 (String c1 EmptyString))
  = String (b64_digit ((N_of_ascii c0 * 65536 + N_of_ascii c1 * 256) / 262144))
      (String (b64_digit ((N_of_ascii c0 * 65536 + N_of_ascii c1 * 256) / 4096 mod 64))
         (String (b64_digit ((N_of_ascii c0 * 65536 + N_of_ascii c1 * 256) / 64 mod 64))
            "=")).
Proof. reflexivity. Qed.

Lemma btoa_3 (c0 c1 c2 : ascii) (rest : string) :
  btoa (String c0 (String c1 (String c2 rest)))
  = String (b64_digit ((N_of_ascii c0 * 65536 + N_of_ascii c1 * 256 + N_of_ascii c2)
                       / 262144))
      (String (b64_digit ((N_of_ascii c0 * 65536 + N_of_ascii c1 * 256 + N_of_ascii c2)
                          / 4096 mod 64))
         (String (b64_digit ((N_of_ascii c0 * 65536 + N_of_ascii c1 * 256 + N_of_ascii c2)
                             / 64 mod 64))
            (String (b64_digit ((N_of_ascii c0 * 65536 + N_of_ascii c1 * 256
                                 + N_of_ascii c2) mod 64))
               (btoa rest)))).
Proof. reflexivity. Qed.

Lemma N_of_ascii_inj (c d : ascii) : N_of_ascii c = N_of_ascii d → c = d.
Proof.
  intros H. by rewrite <- (ascii_N_embedding c), H, ascii_N_embedding.
Qed.

Lemma low_digit_zero (a b : N) : ((a * 65536 + b * 256) mod 64 = 0)%N.
Proof.
  replace (a * 65536 + b * 256)%N with ((a * 1024 + b * 4) * 64)%N by lia.
  apply N.Div0.mod_mul.
Qed.

Lemma third_digit_zero (a : N) : ((a * 65536) / 64 mod 64 = 0)%N.
Proof.
  replace (a * 65536)%N with (a * 1024 * 64)%N by lia. rewrite N.div_mul by done.
  replace (a * 1024)%N with (a * 16 * 64)%N by lia. apply N.Div0.mod_mul.
Qed.

Lemma btoa_inj_le (n : nat) (s s' : string) :
  String.length s ≤ n → btoa s = btoa s' → s = s'.
Proof.
  revert s s'. induction n as [|n IH]; intros s s' Hlen;
    destruct s as [|c0 [|c1 [|c2 rest]]]; cbn in Hlen; try lia;
    destruct s' as [|d0 [|d1 [|d2 rest']]];
    rewrite ?btoa_1, ?btoa_2, ?btoa_3; try done.
  all: intros Heq; simplify_eq.
  all: repeat match goal with
         | H : b64_digit _ = "="%char |- _ =>
             exfalso; revert H; apply b64_digit_not_pad;
             first [apply digit_lt_mod | apply digit_lt_div]
         | H : "="%char = b64_digit _ |- _ => symmetry in H
         end.
  - pose proof (N_ascii_bounded c0). pose proof (N_ascii_bounded d0).
    apply b64_digit_inj in Heq; [|apply digit_lt_div; lia..].
    apply b64_digit_inj in H; [|apply digit_lt_mod..].
    assert (N_of_ascii c0 * 65536 = N_of_ascii d0 * 65536)%N as E.
    { apply group_digits_inj; [lia|lia|done|done|by rewrite !third_digit_zero|].
      pose proof (low_digit_zero (N_of_ascii c0) 0).
      pose proof (low_digit_zero (N_of_ascii d0) 0).
      rewrite !N.add_0_r in *. congruence. }
    f_equal. apply N_of_ascii_inj. lia.
  - pose proof (N_ascii_bounded c0). pose proof (N_ascii_bounded d0).
    pose proof (N_ascii_bounded c1). pose proof (N_ascii_bounded d1).
    apply b64_digit_inj in Heq; [|apply digit_lt_div; lia..].
    apply b64_digit_inj in H; [|apply digit_lt_mod..].
    apply b64_digit_inj in H0; [|apply digit_lt_mod..].
    assert (N_of_ascii c0 * 65536 + N_of_ascii c1 * 256
            = N_of_ascii d0 * 65536 + N_of_ascii d1 * 256)%N as E.
    { apply group_digits_inj; [lia|lia|done|done|done|].
      by rewrite !low_digit_zero. }
    assert (N_of_ascii c0 = N_of_ascii d0 ∧ N_of_ascii c1 = N_of_ascii d1) as [E0 E1]
      by lia.
    by rewrite (N_of_ascii_inj _ _ E0), (N_of_ascii_inj _ _ E1).
  - pose proof (group_bound c0 c1 c2). pose proof (group_bound d0 d1 d2).
    apply b64_digit_inj in Heq; [|by apply digit_lt_div..].
    apply b64_digit_inj in H; [|apply digit_lt_mod..].
    apply b64_digit_inj in H0; [|apply digit_lt_mod..].
    apply b64_digit_inj in H1; [|apply digit_lt_mod..].
    destruct (group_inj c0 c1 c2 d0 d1 d2) as (-> & -> & ->).
    { by apply group_digits_inj. }
    do 3 f_equal. apply (IH rest rest'); [lia|done].
Qed.

(** X14. [toBase64] is one-to-one: two byte sequences with the same text are
    the same, so a token determines its nonce and ciphertext. *)
Theorem toBase64_inj (buf buf' : list byte) :
  toBase64 buf = toBase64 buf' → buf = buf'.
Proof.
  unfold toBase64, binary_string. intros H.
  apply (btoa_inj_le (String.length (String.string_of_list_byte buf))) in H; [|done].
  by rewrite <- (String.list_byte_of_string_of_list_byte buf), H,
             String.list_byte_of_string_of_list_byte.
Qed.

Lemma toBase64_inj_witness : [x4d; x61; x6e; x00] = [x4d; x61; x6e; x00].
Proof. apply toBase64_inj. reflexivity. Defined.

(** ** [toBase64] is the base64 of RFC 4648 *)

Example base64_rfc4648_vectors :
  base64_rfc4648 [x66] = "Zg==" ∧ base64_rfc4648 [x66; x6f] = "Zm8="
  ∧ base64_rfc4648 [x66; x6f; x6f] = "Zm9v"
  ∧ base64_rfc4648 [x66; x6f; x6f; x62; x61; x72] = "Zm9vYmFy".
Proof. by vm_compute. Qed.

Lemma b64_digit_table :
  Forall (λ i, b64_digit (N.of_nat i) = base64_char (N.of_nat i)) (seq 0 64).
Proof. by_compute. Qed.

Lemma b64_digit_base64_char (v : N) : (v < 64)%N → b64_digit v = base64_char v.
Proof.
  intros Hv. pose proof b64_digit_table as H. rewrite Forall_forall in H.
  specialize (H (N.to_nat v)). rewrite N2Nat.id in H. apply H, elem_of_seq. lia.
Qed.

(** What the bits of one byte spell, cut where a group of six can cut
    them. *)
Lemma byte_bits (b : byte) :
  let n := Byte.to_N b in
  value_of_bits (take 6 (bits_of_byte b)) = (n / 4)%N
  ∧ value_of_bits (drop 6 (bits_of_byte b)) = (n mod 4)%N
  ∧ value_of_bits (take 4 (bits_of_byte b)) = (n / 16)%N
  ∧ value_of_bits (drop 4 (bits_of_byte b)) = (n mod 16)%N
  ∧ value_of_bits (take 2 (bits_of_byte b)) = (n / 64)%N
  ∧ value_of_bits (drop 2 (bits_of_byte b)) = (n mod 64)%N
  ∧ N_of_ascii (ascii_of_byte b) = n
  ∧ (n < 256)%N.
Proof. destruct b; vm_compute; repeat split; reflexivity. Qed.

Lemma group_arith (n0 n1 n2 : N) :
  (n0 < 256)%N → (n1 < 256)%N → (n2 < 256)%N →
  ((n0 * 65536 + n1 * 256 + n2) / 262144 = n0 / 4
   ∧ (n0 * 65536 + n1 * 256 + n2) / 4096 mod 64 = n0 mod 4 * 16 + n1 / 16
   ∧ (n0 * 65536 + n1 * 256 + n2) / 64 mod 64 = n1 mod 16 * 4 + n2 / 64
   ∧ (n0 * 65536 + n1 * 256 + n2) mod 64 = n2 mod 64)%N.
Proof.
  intros H0 H1 H2. repeat split; zify; Z.to_euclidean_division_equations; lia.
Qed.

Lemma value_of_bits_join (l1 l2 : list bool) :
  value_of_bits (l1 ++ l2)
  = (value_of_bits l1 * 2 ^ N.of_nat (length l2) + value_of_bits l2)%N.
Proof.
  unfold value_of_bits.
  assert (∀ l acc, foldl (λ acc (b : bool), (2 * acc + (if b then 1 else 0))%N) acc l
                   = (acc * 2 ^ N.of_nat (length l)
                      + foldl (λ acc (b : bool), (2 * acc + (if b then 1 else 0))%N) 0 l)%N)
    as Hacc.
  { induction l as [|b l IH]; intros acc; cbn [foldl length].
    - cbn. lia.
    - rewrite IH, (IH (2 * 0 + _)%N), Nat2N.inj_succ, N.pow_succ_r'. lia. }
  rewrite foldl_app, Hacc. done.
Qed.

Lemma group_values (b0 b1 b2 : byte) :
  let n := (N_of_ascii (ascii_of_byte b0) * 65536 + N_of_ascii (ascii_of_byte b1) * 256
            + N_of_ascii (ascii_of_byte b2))%N in
  b64_digit (n / 262144) = base64_char (value_of_bits (take 6 (bits_of_byte b0)))
  ∧ b64_digit (n / 4096 mod 64)
    = base64_char (value_of_bits (drop 6 (bits_of_byte b0) ++ take 4 (bits_of_byte b1)))
  ∧ b64_digit (n / 64 mod 64)
    = base64_char (value_of_bits (drop 4 (bits_of_byte b1) ++ take 2 (bits_of_byte b2)))
  ∧ b64_digit (n mod 64) = base64_char (value_of_bits (drop 2 (bits_of_byte b2))).
Proof.
  intros n.
  destruct (byte_bits b0) as (H06 & H02 & _ & _ & _ & _ & E0 & L0).
  destruct (byte_bits b1) as (_ & _ & H14 & H1l & _ & _ & E1 & L1).
  destruct (byte_bits b2) as (_ & _ & _ & _ & H22 & H2l & E2 & L2).
  cbv zeta in *. subst n. rewrite E0, E1, E2.
  destruct (group_arith _ _ _ L0 L1 L2) as (G0 & G1 & G2 & G3).
  rewrite !value_of_bits_join, H06, H02, H14, H1l, H22, H2l.
  change (2 ^ N.of_nat (length (take 4 (bits_of_byte b1))))%N with 16%N.
  change (2 ^ N.of_nat (length (take 2 (bits_of_byte b2))))%N with 4%N.
  rewrite <- G0, <- G1, <- G2, <- G3.
  assert (Byte.to_N b0 * 65536 + Byte.to_N b1 * 256 + Byte.to_N b2 < 16777216)%N by lia.
  repeat split; apply b64_digit_base64_char;
    first [by apply digit_lt_div | apply digit_lt_mod].
Qed.

Lemma sextets_3 (b0 b1 b2 : byte) (bits : list bool) :
  sextets (bits_of_byte b0 ++ bits_of_byte b1 ++ bits_of_byte b2 ++ bits)
  = [ take 6 (bits_of_byte b0);
      drop 6 (bits_of_byte b0) ++ take 4 (bits_of_byte b1);
      drop 4 (bits_of_byte b1) ++ take 2 (bits_of_byte b2);
      drop 2 (bits_of_byte b2) ] ++ sextets bits.
Proof. reflexivity. Qed.

Lemma sextets_2 (b0 b1 : byte) :
  sextets (bits_of_byte b0 ++ bits_of_byte b1 ++ [])
  = [ take 6 (bits_of_byte b0);
      drop 6 (bits_of_byte b0) ++ take 4 (bits_of_byte b1);
      drop 4 (bits_of_byte b1) ++ take 2 (bits_of_byte x00) ].
Proof. reflexivity. Qed.

Lemma sextets_1 (b0 : byte) :
  sextets (bits_of_byte b0 ++ [])
  = [ take 6 (bits_of_byte b0);
      drop 6 (bits_of_byte b0) ++ take 4 (bits_of_byte x00) ].
Proof. reflexivity. Qed.

Lemma toBase64_rfc4648_le (n : nat) (buf : list byte) :
  length buf ≤ n → toBase64 buf = base64_rfc4648 buf.
Proof.
  revert buf. induction n as [|n IH]; intros buf Hlen;
    destruct buf as [|b0 [|b1 [|b2 rest]]]; cbn in Hlen; try lia; try reflexivity.
  - unfold toBase64, base64_rfc4648.
    change (binary_string [b0]) with (String (ascii_of_byte b0) EmptyString).
    rewrite btoa_1. cbn [fmap list_fmap concat]. rewrite sextets_1.
    destruct (group_values b0 x00 x00) as (G0 & G1 & _ & _).
    change (N_of_ascii (ascii_of_byte x00)) with 0%N in G0, G1.
    rewrite N.mul_0_l, !N.add_0_r in G0, G1. by rewrite G0, G1.
  - unfold toBase64, base64_rfc4648.
    change (binary_string [b0; b1])
      with (String (ascii_of_byte b0) (String (ascii_of_byte b1) EmptyString)).
    rewrite btoa_2. cbn [fmap list_fmap concat]. rewrite sextets_2.
    destruct (group_values b0 b1 x00) as (G0 & G1 & G2 & _).
    change (N_of_ascii (ascii_of_byte x00)) with 0%N in G0, G1, G2.
    rewrite !N.add_0_r in G0, G1, G2. by rewrite G0, G1, G2.
  - specialize (IH rest ltac:(lia)). unfold toBase64, base64_rfc4648 in *.
    change (binary_string (b0 :: b1 :: b2 :: rest))
      with (String (ascii_of_byte b0) (String (ascii_of_byte b1)
              (String (ascii_of_byte b2) (binary_string rest)))).
    rewrite btoa_3, IH. cbn [fmap list_fmap concat].
    rewrite sextets_3.
    destruct (group_values b0 b1 b2) as (G0 & G1 & G2 & G3).
    rewrite G0, G1, G2, G3.
    replace (length (b0 :: b1 :: b2 :: rest) mod 3) with (length rest mod 3).
    + reflexivity.
    + cbn [length]. replace (S (S (S (length rest)))) with (length rest + 1 * 3) by lia.
      by rewrite Nat.Div0.mod_add.
Qed.

(** The text [toBase64] returns is the base64 encoding of its bytes as
    RFC 4648 defines it. *)
Lemma toBase64_rfc4648 (buf : list byte) : toBase64 buf = base64_rfc4648 buf.
Proof. by apply (toBase64_rfc4648_le (length buf)). Qed.

(** ** The token encryptor *)

Section TokenFacts.
Context {World Key : Type}.
Implicit Types (c : Crypto World Key) (sub : SubtleCrypto World Key).
Implicit Types (window : option (Window World Key)) (w : World) (s : UiState).

Lemma getRandomValues_length c (len : nat) w :
  length (fst (getRandomValues c len w)) = len.
Proof.
  revert w. induction len as [|len IH]; intros w; [done|]. cbn.
  destruct (random_byte c w) as [b w1]. specialize (IH w1).
  destruct (getRandomValues c len w1). cbn in *. by rewrite IH.
Qed.

(** A loop that completes has pushed the tokens of the batch, in order. *)
Lemma token_loop_run c sub (key : Key) (res : list Assignment)
    (tokens tokens' : list string) w w' :
  token_loop c sub key res tokens w = (Ok tokens', w') →
  ∃ new, tokens' = tokens ++ new ∧ token_run c sub key w res new w'.
Proof.
  revert tokens w. induction res as [|a res IH]; intros tokens w; cbn [token_loop].
  - intros [= <- <-]. exists []. split; [by rewrite app_nil_r|constructor].
  - destruct (getRandomValues c 12 w) as [iv w1] eqn:Hiv.
    destruct (encrypt sub iv key _ w1) as [[ct|] w2] eqn:Hct; [|done].
    intros (new & -> & Hnew)%IH. exists (base64_rfc4648 (iv ++ ct) :: new).
    split; [by rewrite <- app_assoc, toBase64_rfc4648|]. by econstructor.
Qed.

Lemma token_run_is_token c sub (key : Key) (res : list Assignment)
    (tokens : list string) w w' :
  token_run c sub key w res tokens w' → Forall2 (is_token c sub key) res tokens.
Proof.
  induction 1 as [|w w1 w2 w' a rest iv ct tokens Hiv Hct _ IH]; constructor; [|done].
  exists iv, ct, w, w1, w2. repeat split; [done| |done].
  by rewrite <- (getRandomValues_length c 12 w), Hiv.
Qed.

Lemma token_loop_Ok c sub (key : Key) (res : list Assignment)
    (tokens tokens' : list string) w w' :
  token_loop c sub key res tokens w = (Ok tokens', w') →
  ∃ new, tokens' = tokens ++ new ∧ Forall2 (is_token c sub key) res new.
Proof.
  intros (new & -> & Hrun)%token_loop_run. exists new. split; [done|].
  by eapply token_run_is_token.
Qed.

(** A loop whose encryption rejects at one item throws, whatever was
    pushed before and whatever follows. *)
Lemma token_loop_Thrown c sub (key : Key) (pre post : list Assignment)
    (a : Assignment) (tokens tokens1 : list string) w w1 w2 w3 (iv : list byte) :
  token_loop c sub key pre tokens w = (Ok tokens1, w1) →
  getRandomValues c 12 w1 = (iv, w2) →
  encrypt sub iv key (encode (id (recipient a))) w2 = (None, w3) →
  token_loop c sub key (pre ++ a :: post) tokens w = (Thrown, w3).
Proof.
  revert tokens w.
  induction pre as [|b pre IH]; intros tokens w; cbn [token_loop app].
  - intros [= <- <-] -> ->. done.
  - destruct (getRandomValues c 12 w) as [iv' w'].
    destruct (encrypt sub iv' key _ w') as [[ct|] w'']; [|done]. apply IH.
Qed.

(** C6. A run of token generation that succeeds publishes exactly one
    token per assignment, index-aligned with the assignments; the token at
    index [i] is the base64 text (RFC 4648) of a 12-byte random nonce
    followed by the ciphertext, under the batch key, of the UTF-8 bytes of
    the recipient id of assignment [i]. The nonces are the ones drawn, one
    per assignment and in order, after the key was generated. *)
Theorem tokens_count_and_order window c sub (res : list Assignment)
    (parts : list Participant) w w' s s' :
  web_crypto window = Some (c, sub) →
  try_block window res parts w s = (Ok (), w', s') →
  createEncryptedTokensAndVerify window res parts w s = (w', s')
  ∧ ∃ key w0 tokens,
      generateKey sub w = (Some key, w0)
      ∧ token_run c sub key w0 res tokens w'
      ∧ encryptedTokens s' = Some tokens
      ∧ length tokens = length res
      ∧ Forall2 (is_token c sub key) res tokens
      ∧ ∀ i a, res !! i = Some a → ∃ t, tokens !! i = Some t ∧ is_token c sub key a t.
Proof.
  intros Hweb Htry. unfold createEncryptedTokensAndVerify. rewrite Htry.
  split; [done|]. revert Hweb Htry. unfold web_crypto, try_block.
  destruct window as [win|]; [|done]. cbn.
  destruct (crypto win) as [c'|]; [|done]. cbn.
  destruct (subtle c') as [sub'|]; [|done]. cbn. intros [= -> ->].
  destruct (generateKey sub w) as [[key|] w0] eqn:Hkey; [|done].
  destruct (token_loop c sub key res [] w0) as [[tokens|] w1] eqn:Hloop; [|done].
  intros [= <- <-]. apply token_loop_run in Hloop as (new & -> & Hrun).
  pose proof (token_run_is_token _ _ _ _ _ _ _ Hrun) as Hall.
  exists key, w0, new. cbn. split; [done|]. split; [done|]. split; [done|].
  split; [|split; [done|]].
  - symmetry. by eapply Forall2_length.
  - intros i a Ha. by eapply Forall2_lookup_l.
Qed.

(** C7. When Web Crypto is missing ([window], [window.crypto] or
    [window.crypto.subtle]), the function completes with the verification
    result stored, the token result set to absent, no error raised and
    nothing drawn from the platform. *)
Theorem tokens_skipped_without_web_crypto window (res : list Assignment)
    (parts : list Participant) w s :
  web_crypto window = None →
  try_block window res parts w s
  = (Ok (), w, {| verification := Some (verify res parts);
                  encryptedTokens := None; error := error s |})
  ∧ createEncryptedTokensAndVerify window res parts w s
    = (w, {| verification := Some (verify res parts);
             encryptedTokens := None; error := error s |}).
Proof.
  intros Hweb.
  assert (try_block window res parts w s
          = (Ok (), w, {| verification := Some (verify res parts);
                          encryptedTokens := None; error := error s |})) as Htry.
  { revert Hweb. unfold web_crypto, try_block.
    destruct window as [win|]; [|done]. cbn.
    destruct (crypto win) as [c|]; [|done]. cbn.
    by destruct (subtle c). }
  split; [done|]. unfold createEncryptedTokensAndVerify. by rewrite Htry.
Qed.

(** C8. When the encryption of one item rejects (the items before it
    encrypted), the function stops there: the error "Failed to create
    encrypted tokens." is raised, and the token result is left as it was,
    so the tokens made so far are not published. *)
Theorem encryption_failure_aborts window c sub (pre post : list Assignment)
    (a : Assignment) (parts : list Participant) (key : Key)
    (made : list string) (iv : list byte) w w0 w1 w2 w3 s :
  web_crypto window = Some (c, sub) →
  generateKey sub w = (Some key, w0) →
  token_loop c sub key pre [] w0 = (Ok made, w1) →
  getRandomValues c 12 w1 = (iv, w2) →
  encrypt sub iv key (encode (id (recipient a))) w2 = (None, w3) →
  createEncryptedTokensAndVerify window (pre ++ a :: post) parts w s
  = (w3, {| verification := Some (verify (pre ++ a :: post) parts);
            encryptedTokens := encryptedTokens s;
            error := Some token_failure |}).
Proof.
  intros Hweb Hkey Hpre Hiv Hct.
  pose proof (token_loop_Thrown c sub key pre post a [] made w0 w1 w2 w3 iv
                Hpre Hiv Hct) as Hloop.
  revert Hweb. unfold web_crypto, createEncryptedTokensAndVerify, try_block.
  destruct window as [win|]; [|done]. cbn.
  destruct (crypto win) as [c'|]; [|done]. cbn.
  destruct (subtle c') as [sub'|]; [|done]. cbn. intros [= -> ->].
  by rewrite Hkey, Hloop.
Qed.
End TokenFacts.

Lemma tokens_count_and_order_witness :
  createEncryptedTokensAndVerify (Some toy_window)
    [ {| giver := alice; recipient := bob |}; {| giver := bob; recipient := alice |} ]
    [alice; bob] [x01; x02] fresh
  = ([], snd (createEncryptedTokensAndVerify (Some toy_window)
                [ {| giver := alice; recipient := bob |};
                  {| giver := bob; recipient := alice |} ] [alice; bob] [x01; x02] fresh))
  ∧ ∃ key w0 tokens,
      generateKey toy_subtle [x01; x02] = (Some key, w0)
      ∧ token_run toy_crypto toy_subtle key w0
          [ {| giver := alice; recipient := bob |};
            {| giver := bob; recipient := alice |} ] tokens []
      ∧ encryptedTokens
          (snd (createEncryptedTokensAndVerify (Some toy_window)
                  [ {| giver := alice; recipient := bob |};
                    {| giver := bob; recipient := alice |} ] [alice; bob] [x01; x02] fresh))
        = Some tokens
      ∧ length tokens = 2
      ∧ Forall2 (is_token toy_crypto toy_subtle key)
          [ {| giver := alice; recipient := bob |};
            {| giver := bob; recipient := alice |} ] tokens
      ∧ ∀ i a,
          [ {| giver := alice; recipient := bob |};
            {| giver := bob; recipient := alice |} ] !! i = Some a →
          ∃ t, tokens !! i = Some t ∧ is_token toy_crypto toy_subtle key a t.
Proof.
  apply (tokens_count_and_order (Some toy_window) toy_crypto toy_subtle).
  - reflexivity.
  - vm_compute. reflexivity.
Defined.

Lemma tokens_skipped_without_web_crypto_witness :
  try_block (Some {| crypto := None |} : option (Window (list byte) byte))
    [ {| giver := alice; recipient := bob |}; {| giver := bob; recipient := alice |} ]
    [alice; bob] [] fresh
  = (Ok (), [], {| verification := Some (verify
                     [ {| giver := alice; recipient := bob |};
                       {| giver := bob; recipient := alice |} ] [alice; bob]);
                   encryptedTokens := None; error := error fresh |})
  ∧ createEncryptedTokensAndVerify (Some {| crypto := None |} : option (Window (list byte) byte))
      [ {| giver := alice; recipient := bob |}; {| giver := bob; recipient := alice |} ]
      [alice; bob] [] fresh
    = ([], {| verification := Some (verify
                [ {| giver := alice; recipient := bob |};
                  {| giver := bob; recipient := alice |} ] [alice; bob]);
              encryptedTokens := None; error := error fresh |}).
Proof. apply tokens_skipped_without_web_crypto. reflexivity. Defined.

Lemma encryption_failure_aborts_witness :
  createEncryptedTokensAndVerify (Some toy_window)
    ([ {| giver := alice; recipient := bob |} ]
     ++ {| giver := bob; recipient := dave |}
     :: [ {| giver := dave; recipient := alice |} ])
    [alice; bob; dave] [] fresh
  = ([], {| verification := Some (verify
              ([ {| giver := alice; recipient := bob |} ]
               ++ {| giver := bob; recipient := dave |}
               :: [ {| giver := dave; recipient := alice |} ]) [alice; bob; dave]);
            encryptedTokens := encryptedTokens fresh;
            error := Some token_failure |}).
Proof.
  eapply (encryption_failure_aborts (Some toy_window) toy_crypto toy_subtle).
  - reflexivity.
  - reflexivity.
  - vm_compute. reflexivity.
  - vm_compute. reflexivity.
  - vm_compute. reflexivity.
Defined.

(** ** The send-emails route *)

Section RouteFacts.
Import Route.
Context {World : Type}.
Variable type_error : Value → string → string.
Variable number_text : Q → string.
Variable convert_error : string.
Variable parseFromString : string → string * string.
Variable fetch : Request → World → Completion ProviderReply * World.

Lemma no_assignments_nonempty (v : Value) :
  no_assignments v = negb (nonempty_array v).
Proof.
  unfold no_assignments, nonempty_array.
  destruct v as [[| b | q | s | [|a items] | fields]|];
    cbn [truthy isArray negb length Nat.eqb]; by rewrite ?orb_true_r.
Qed.

(** C10, amended. When the JSON body of the request is not [null] and has
    no [assignments] field, an [assignments] value that is no array, or an
    empty [assignments] array, the handler answers with status 400 and the
    error "no assignments"; when the body is [null], reading [assignments]
    throws and the handler answers with status 500 and the message of that
    error. In both cases no request is sent to the provider: the sending
    loop runs for a non-empty [assignments] array only. *)
Theorem missing_assignments_rejected (env : Env) (body : JSON) (w : World) :
  nonempty_array (assignments_of body) = false →
  POST type_error number_text convert_error parseFromString fetch env (Normal body) w
  = (match body with
     | JNull => {| code := 500;
                   body := ErrorBody (type_error (Some JNull) "assignments") |}
     | _ => {| code := 400; body := ErrorBody "no assignments" |}
     end, w, []).
Proof.
  intros Hno. unfold POST, try_block.
  destruct body as [| b | q | s | items | fields]; cbn; try done.
  cbn in Hno. by rewrite no_assignments_nonempty, Hno.
Qed.
End RouteFacts.

(** C10, as claimed: every request whose body has no [assignments] field is
    answered with status 400 and the error "no assignments". The JSON body
    [null] has no such field, and the answer to it has status 500 and the
    engine's TypeError message. *)
Lemma null_body_is_500 :
  Route.nonempty_array (Route.assignments_of Route.JNull) = false
  ∧ toy_POST toy_env (Route.Normal Route.JNull) 0
    = ({| Route.code := 500;
          Route.body :=
            Route.ErrorBody "Cannot read properties of null (reading 'assignments')" |},
       0, [])
  ∧ fst (fst (toy_POST toy_env (Route.Normal Route.JNull) 0))
    ≠ {| Route.code := 400; Route.body := Route.ErrorBody "no assignments" |}.
Proof. split; [done|]. split; [vm_compute; reflexivity|]. vm_compute. intros [=]. Qed.

Lemma missing_assignments_rejected_witness :
  toy_POST toy_env
    (Route.Normal (Route.JObj [("assignments", Route.JArr [])])) 0
  = ({| Route.code := 400; Route.body := Route.ErrorBody "no assignments" |}, 0, []).
Proof.
  apply (missing_assignments_rejected toy_type_error toy_number_text toy_convert_error toy_parseFromString
           toy_fetch toy_env (Route.JObj [("assignments", Route.JArr [])]) 0).
  reflexivity.
Defined.

Example route_sends_one :
  toy_POST toy_env
    (Route.Normal (Route.JObj [("assignments", Route.JArr [
       Route.JObj [("giver", Route.JObj [("name", Route.JStr "A"); ("email", Route.JStr "a@x.org")]);
                   ("recipient", Route.JObj [("name", Route.JStr "B"); ("email", Route.JStr "b@x.org")])]])])) 0
  = ({| Route.code := 200;
        Route.body := Route.SummaryBody 1 1
          [ {| Route.to := Some (Route.JStr "a@x.org"); Route.r_ok := true;
               Route.r_status := 200; Route.r_body := Route.JNull |} ] |},
     1,
     [ {| Route.url := "https://mail.test/send"; Route.authorization := "Bearer k";
          Route.payload :=
            {| Route.from := {| Route.address := "no-reply@example.com";
                                Route.display_name := Some "Secret Santa" |};
               Route.to_address := Some (Route.JStr "a@x.org");
               Route.to_name := Some (Route.JStr "A");
               Route.subject := "Secret Santa assignment";
               Route.text := "Hi A," +:+ Route.nl +:+ Route.nl +:+
                 "You have been assigned to give a gift to B (b@x.org)." +:+
                 Route.nl +:+ Route.nl +:+ "Happy gifting!";
               Route.html := "<p>Hi A,</p><p>You have been assigned to shop for <strong>B</strong> (b@x.org).</p><p>Happy gifting!</p>" |} |} ]).
Proof. vm_compute. reflexivity. Qed.

(** ** More about [shuffle] *)

Lemma shuffle_loop_draws {T} (i : nat) (a : list T) (g : Rng) (k : nat) :
  snd (shuffle_loop i a g) k = g (k + i).
Proof.
  revert a g k. induction i as [|i IH]; intros a g k.
  - cbn. f_equal. lia.
  - cbn [shuffle_loop]. rand_simpl. rewrite IH. cbn. f_equal. lia.
Qed.

(** X1. [shuffle] calls [Math.random] exactly [arr.length - 1] times (not
    at all on an empty or one-element array): the stream it leaves behind
    is the one it got, that many values further on. *)
Theorem shuffle_draws {T} (arr : list T) (g : Rng) (k : nat) :
  snd (shuffle arr g) k = g (k + (length arr - 1)).
Proof. apply shuffle_loop_draws. Qed.

(** ** More about the assignment engine *)

(** X4. With exactly two participants of different ids the result does not
    depend on [Math.random]: the first gives to the second and the second
    to the first. *)
Theorem assign_two (a b : Participant) (g : Rng) :
  id a ≠ id b →
  fst (assignSecretSantas [a; b] g)
  = [ {| giver := a; recipient := b |}; {| giver := b; recipient := a |} ].
Proof.
  intros Hne.
  destruct (assign_cases [a; b] g) as [(rs & Hp & Hok & ->)|[_ ->]]; [cbn; lia| |done].
  symmetry in Hp. apply Permutation_length_2_inv in Hp as [->| ->]; [|done].
  rewrite no_collision_spec in Hok. by destruct (Hok 0); [cbn; lia|].
Qed.

Lemma assign_two_witness :
  fst (assignSecretSantas [bob; carol] (λ _, half))
  = [ {| giver := bob; recipient := carol |}; {| giver := carol; recipient := bob |} ].
Proof. apply assign_two. by_compute. Defined.

(** X5. Only the rotation can hold a self-assignment: for at least two
    participants, unique by id or not, the result either is the rotation or
    has [giver.id] different from [recipient.id] in every assignment. *)
Theorem self_assignment_only_in_rotation (ps : list Participant) (g : Rng) :
  2 ≤ length ps →
  fst (assignSecretSantas ps g) = rotation ps
  ∨ no_self_assignment (fst (assignSecretSantas ps g)).
Proof.
  intros Hn. destruct (assign_cases ps g Hn) as [(rs & Hp & Hok & ->)|[_ ->]].
  - right. apply pair_up_no_self; [by rewrite Hp|done].
  - by left.
Qed.

Lemma self_assignment_only_in_rotation_witness :
  fst (assignSecretSantas [twin_a; twin_b; carol] (λ _, half))
  = rotation [twin_a; twin_b; carol]
  ∨ no_self_assignment (fst (assignSecretSantas [twin_a; twin_b; carol] (λ _, half))).
Proof. apply self_assignment_only_in_rotation. simpl. lia. Defined.

(** ** The engine and the verification together *)

Lemma verify_bijection_NoDup (res : list Assignment) (parts : list Participant) :
  length res = length parts →
  bijection (verify res parts) = true ↔ NoDup (id ∘ recipient <$> res).
Proof.
  intros Hlen. unfold verify. cbn [bijection]. rewrite bool_decide_eq_true.
  change ((λ a, id (recipient a)) <$> res) with (id ∘ recipient <$> res).
  rewrite <- size_list_to_set_NoDup, length_fmap. by rewrite Hlen.
Qed.

(** X6. What the page shows as "Bijection (all recipients unique)": for a
    set with as many assignments as there are participants, [bijection] is
    true exactly when no recipient id occurs twice. *)
Theorem bijection_flag_is_uniqueness (res : list Assignment) (parts : list Participant) :
  length res = length parts →
  bijection (verify res parts) = true ↔ NoDup (id ∘ recipient <$> res).
Proof. apply verify_bijection_NoDup. Qed.

Lemma bijection_flag_is_uniqueness_witness :
  bijection (verify [ {| giver := alice; recipient := bob |};
                      {| giver := bob; recipient := bob |} ] [alice; bob]) = true
  ↔ NoDup (id ∘ recipient <$> [ {| giver := alice; recipient := bob |};
                                {| giver := bob; recipient := bob |} ]).
Proof. apply bijection_flag_is_uniqueness. reflexivity. Defined.

Lemma assign_length (ps : list Participant) (g : Rng) :
  2 ≤ length ps → length (fst (assignSecretSantas ps g)) = length ps.
Proof.
  intros Hn. rewrite <- (assign_givers ps g Hn) at 2. by rewrite length_fmap.
Qed.

(** X7. The verification passes on what the engine returns: for at least
    two participants that are unique by id, both flags computed from the
    result of [assignSecretSantas] and the same participants are true. *)
Theorem engine_output_verifies (ps : list Participant) (g : Rng) :
  unique_by_id ps → 2 ≤ length ps →
  verify (fst (assignSecretSantas ps g)) ps = {| derangement := true; bijection := true |}.
Proof.
  intros Hu Hn.
  assert (derangement (verify (fst (assignSecretSantas ps g)) ps) = true) as Hd.
  { apply verify_derangement. destruct (assign_cases ps g Hn) as [(rs & Hp & Hok & ->)|[_ ->]].
    - apply pair_up_no_self; [by rewrite Hp|done].
    - by apply rotation_no_self. }
  assert (bijection (verify (fst (assignSecretSantas ps g)) ps) = true) as Hb.
  { apply verify_bijection_NoDup; [by apply assign_length|].
    rewrite (recipient_ids_Permutation ps); [done|]. by apply assign_recipients. }
  destruct (verify _ ps) as [d b]. cbn in *. by subst.
Qed.

Lemma engine_output_verifies_witness :
  verify (fst (assignSecretSantas [alice; bob; carol] (λ _, half))) [alice; bob; carol]
  = {| derangement := true; bijection := true |}.
Proof.
  apply engine_output_verifies.
  - by_compute.
  - simpl. lia.
Defined.

(** X8. The verification catches duplicate ids: when two participants share
    an id, the [bijection] flag computed from the result of
    [assignSecretSantas] is false, whatever [Math.random] returns. *)
Theorem duplicate_ids_fail_verification (ps : list Participant) (g : Rng) :
  ¬ unique_by_id ps →
  bijection (verify (fst (assignSecretSantas ps g)) ps) = false.
Proof.
  intros Hdup. pose proof (not_unique_length ps Hdup) as Hn.
  apply not_true_is_false. intros Hb. apply Hdup.
  apply verify_bijection_NoDup in Hb; [|by apply assign_length].
  unfold unique_by_id.
  rewrite <- (recipient_ids_Permutation ps (fst (assignSecretSantas ps g))); [done|].
  by apply assign_recipients.
Qed.

Lemma duplicate_ids_fail_verification_witness :
  bijection (verify (fst (assignSecretSantas [twin_a; carol; twin_b] (λ _, zero)))
                    [twin_a; carol; twin_b]) = false.
Proof. apply duplicate_ids_fail_verification. by_compute. Defined.

(** ** More about the token encryptor *)

Section TokenMore.
Context {World Key : Type}.
Implicit Types (c : Crypto World Key) (sub : SubtleCrypto World Key).
Implicit Types (window : option (Window World Key)) (w : World) (s : UiState).

(** The three ways a run ends, by what the [try] block came to. *)
Lemma try_block_cases window (res : list Assignment) (parts : list Participant) w s :
  let s1 := setVerification (Some (verify res parts)) s in
  (∃ w', try_block window res parts w s = (Thrown, w', s1))
  ∨ (∃ w', try_block window res parts w s = (Ok (), w', setEncryptedTokens None s1)
           ∧ web_crypto window = None)
  ∨ (∃ w' tokens, try_block window res parts w s
                  = (Ok (), w', setEncryptedTokens (Some tokens) s1)
                  ∧ length tokens = length res).
Proof.
  intros s1. unfold try_block, web_crypto. fold s1.
  destruct window as [win|]; [|right; left; eauto]. cbn.
  destruct (crypto win) as [c|]; [|right; left; eauto]. cbn.
  destruct (subtle c) as [sub|]; [|right; left; eauto]. cbn.
  destruct (generateKey sub w) as [[key|] w0]; [|left; eauto].
  destruct (token_loop c sub key res [] w0) as [[tokens|] w1] eqn:Hloop; [|left; eauto].
  right; right. exists w1, tokens. split; [done|].
  apply token_loop_Ok in Hloop as (new & -> & Hall). cbn.
  symmetry. by eapply Forall2_length.
Qed.

Lemma create_verification window (res : list Assignment) (parts : list Participant) w s :
  verification (snd (createEncryptedTokensAndVerify window res parts w s))
  = Some (verify res parts).
Proof.
  unfold createEncryptedTokensAndVerify.
  destruct (try_block_cases window res parts w s)
    as [[w' ->]|[(w' & -> & _)|(w' & tokens & -> & _)]]; done.
Qed.

Lemma create_tokens window (res : list Assignment) (parts : list Participant) w s :
  encryptedTokens s = None →
  ∀ tokens,
    encryptedTokens (snd (createEncryptedTokensAndVerify window res parts w s))
    = Some tokens →
    length tokens = length res.
Proof.
  intros Hs tokens. unfold createEncryptedTokensAndVerify.
  destruct (try_block_cases window res parts w s)
    as [[w' ->]|[(w' & -> & _)|(w' & tokens' & -> & Hlen)]]; cbn.
  - by rewrite Hs.
  - done.
  - by intros [= <-].
Qed.

(** X9. Every run stores the verification of the set it was given, also a
    run whose token generation fails or is skipped: afterwards the
    verification state is the pair of flags computed from [res] and
    [parts]. *)
Theorem verification_always_stored window (res : list Assignment)
    (parts : list Participant) w s :
  verification (snd (createEncryptedTokensAndVerify window res parts w s))
  = Some (verify res parts).
Proof. apply create_verification. Qed.

(** X10. A run never clears an error message: it leaves the error state as
    it was or sets it to the token failure text, so a message shown before
    "(Re)create encrypted tokens" is pressed stays after a successful
    run. *)
Theorem error_never_cleared window (res : list Assignment)
    (parts : list Participant) w s :
  error (snd (createEncryptedTokensAndVerify window res parts w s)) = error s
  ∨ error (snd (createEncryptedTokensAndVerify window res parts w s))
    = Some token_failure.
Proof.
  unfold createEncryptedTokensAndVerify.
  destruct (try_block_cases window res parts w s)
    as [[w' ->]|[(w' & -> & _)|(w' & tokens & -> & _)]]; cbn; auto.
Qed.

(** X11. The published tokens are all or nothing: after a run the token
    state is what it was before, or absent, or a list with exactly one
    token per assignment. *)
Theorem tokens_all_or_nothing window (res : list Assignment)
    (parts : list Participant) w s :
  encryptedTokens (snd (createEncryptedTokensAndVerify window res parts w s))
  = encryptedTokens s
  ∨ encryptedTokens (snd (createEncryptedTokensAndVerify window res parts w s)) = None
  ∨ ∃ tokens,
      encryptedTokens (snd (createEncryptedTokensAndVerify window res parts w s))
      = Some tokens
      ∧ length tokens = length res.
Proof.
  unfold createEncryptedTokensAndVerify.
  destruct (try_block_cases window res parts w s)
    as [[w' ->]|[(w' & -> & _)|(w' & tokens & -> & Hlen)]]; cbn; eauto.
Qed.

(** X12. When [generateKey] rejects, no nonce is drawn and nothing is
    encrypted: the run ends with the token failure text as error, the token
    state untouched and the verification stored. *)
Theorem key_generation_failure_aborts window c sub (res : list Assignment)
    (parts : list Participant) w w0 s :
  web_crypto window = Some (c, sub) →
  generateKey sub w = (None, w0) →
  createEncryptedTokensAndVerify window res parts w s
  = (w0, {| verification := Some (verify res parts);
            encryptedTokens := encryptedTokens s;
            error := Some token_failure |}).
Proof.
  intros Hweb Hkey. revert Hweb.
  unfold web_crypto, createEncryptedTokensAndVerify, try_block.
  destruct window as [win|]; [|done]. cbn.
  destruct (crypto win) as [c'|]; [|done]. cbn.
  destruct (subtle c') as [sub'|]; [|done]. cbn. intros [= -> ->].
  by rewrite Hkey.
Qed.
End TokenMore.

Lemma key_generation_failure_aborts_witness :
  createEncryptedTokensAndVerify
    (Some {| crypto := Some {| random_byte := λ w : list byte, (hd x00 w, tl w);
                               subtle := Some {| generateKey := λ w, (@None byte, tl w);
                                                 encrypt := encrypt toy_subtle |} |} |})
    [ {| giver := alice; recipient := bob |} ] [alice; bob] [x01; x02] fresh
  = ([x02], {| verification := Some (verify [ {| giver := alice; recipient := bob |} ]
                                            [alice; bob]);
               encryptedTokens := encryptedTokens fresh;
               error := Some token_failure |}).
Proof.
  eapply key_generation_failure_aborts; reflexivity.
Defined.

(** ** [toBase64] *)

Lemma btoa_length_le (n : nat) (s : string) :
  String.length s ≤ n → String.length (btoa s) = 4 * ((String.length s + 2) / 3).
Proof.
  revert s. induction n as [|n IH]; intros s Hs;
    destruct s as [|c0 [|c1 [|c2 rest]]]; try done; cbn in Hs; try lia.
  cbn [btoa String.length]. rewrite IH by lia.
  replace (S (S (S (String.length rest))) + 2) with (String.length rest + 2 + 1 * 3) by lia.
  rewrite Nat.div_add by lia. lia.
Qed.

Lemma binary_string_length (bytes : list byte) :
  String.length (binary_string bytes) = length bytes.
Proof.
  unfold binary_string, String.string_of_list_byte.
  induction bytes as [|b bytes IH]; cbn; [done|]. by rewrite IH.
Qed.

(** X13. The text [toBase64] returns for [n] bytes has [4 * ceil(n / 3)]
    characters. *)
Theorem toBase64_length (buf : list byte) :
  String.length (toBase64 buf) = 4 * ((length buf + 2) / 3).
Proof.
  unfold toBase64. rewrite (btoa_length_le (String.length (binary_string buf))) by done.
  by rewrite binary_string_length.
Qed.



(** ** The page component *)

Lemma substring_length (n m : nat) (s : string) :
  String.length (String.substring n m s) ≤ m.
Proof.
  revert n m. induction s as [|c s IH]; intros [|n] [|m]; cbn; try lia.
  - specialize (IH 0 m). lia.
  - apply (IH n 0).
  - apply (IH n (S m)).
Qed.

(** X17. [removeParticipant id] leaves exactly the participants whose id
    is not [id], in their order, keeps the ids unique when they were, and
    drops the assignments. *)
Theorem removeParticipant_removes (i : string) (h : Home) :
  (∀ p, p ∈ participants (removeParticipant i h) ↔ p ∈ participants h ∧ id p ≠ i)
  ∧ participants (removeParticipant i h) `sublist_of` participants h
  ∧ (unique_by_id (participants h) → unique_by_id (participants (removeParticipant i h)))
  ∧ assignments (removeParticipant i h) = None.
Proof.
  cbn. split; [|split; [|split; [|done]]].
  - intros p. rewrite list_elem_of_filter. tauto.
  - apply sublist_filter.
  - unfold unique_by_id. intros Hu.
    apply (NoDup_fmap_2_strong id).
    + intros p q [_ Hp]%list_elem_of_filter [_ Hq]%list_elem_of_filter Heq.
      destruct (list_elem_of_lookup_1 _ _ Hp) as [a Ha].
      destruct (list_elem_of_lookup_1 _ _ Hq) as [b Hb].
      assert (a = b) as <-; [|congruence].
      apply (NoDup_lookup _ _ _ (id p) Hu); rewrite list_lookup_fmap.
      * by rewrite Ha.
      * by rewrite Hb, Heq.
    + apply NoDup_filter. by apply NoDup_fmap_1 in Hu.
Qed.

Section HomeFacts.
Context {World Key : Type}.
Variable window : option (Window World Key).
Variable trim : string → string.
Variable toString36 : Sample → string.

(** An id made by [uid] has at most seven characters, and making it
    takes one value of [Math.random]. *)
Theorem uid_short (g : Rng) :
  String.length (fst (uid toString36 g)) ≤ 7
  ∧ ∀ k, snd (uid toString36 g) k = g (S k).
Proof.
  unfold uid. rand_simpl. split; [apply substring_length|done].
Qed.

(** X15. Submitting the form with a name or an email that is blank after
    trimming only sets the error "Please provide both name and email.": no
    participant is added, no id is drawn, the form keeps its text and the
    assignments stay. *)
Theorem addParticipant_blank (h : Home) (g : Rng) :
  trim (form_name h) = "" ∨ trim (form_email h) = "" →
  addParticipant trim toString36 h g
  = (with_ui (setError (Some missing_fields) (ui h)) h, g).
Proof.
  intros Hblank. unfold addParticipant. cbn [form_name form_email with_ui].
  destruct Hblank as [-> | ->]; by rewrite ?bool_decide_eq_true_2, ?orb_true_r by done.
Qed.

(** X16. Submitting a name and an email that are not blank appends one
    participant, with the trimmed texts and a fresh [uid], after the ones
    there, empties the form, clears the error and drops the assignments.
    The ids stay unique exactly when the new id is not the id of a
    participant already there: [addParticipant] does not compare them. *)
Theorem addParticipant_appends (h : Home) (g : Rng) :
  trim (form_name h) ≠ "" → trim (form_email h) ≠ "" →
  let p := {| id := fst (uid toString36 g); name := trim (form_name h);
              email := trim (form_email h) |} in
  fst (addParticipant trim toString36 h g)
  = {| form_name := ""; form_email := ""; participants := participants h ++ [p];
       assignments := None; ui := setError None (ui h); sendStatus := sendStatus h |}
  ∧ (unique_by_id (participants h ++ [p])
     ↔ unique_by_id (participants h) ∧ id p ∉ id <$> participants h).
Proof.
  intros Hn He p. split.
  - unfold addParticipant. cbn [form_name form_email with_ui].
    rewrite !bool_decide_eq_false_2 by done. cbn [orb]. by rand_simpl.
  - unfold unique_by_id. rewrite fmap_app, NoDup_app. cbn. split.
    + intros (Hu & Hdisj & _). split; [done|]. intros Hin.
      apply (Hdisj _ Hin), list_elem_of_here.
    + intros [Hu Hfresh]. split; [done|]. split; [|apply NoDup_singleton].
      by intros x Hx ->%list_elem_of_singleton.
Qed.

(** X18. "Assign Santas" with fewer than two participants only sets the
    error "Add at least 2 participants to assign Santas.": the engine is
    not run, nothing is drawn and no token is made. *)
Theorem handleAssign_too_few (h : Home) (g : Rng) (w : World) :
  length (participants h) < 2 →
  handleAssign window h g w = (with_ui (setError (Some too_few) (ui h)) h, g, w).
Proof.
  intros Hn. unfold handleAssign. cbn [participants with_ui].
  by destruct (Nat.ltb_spec (length (participants h)) 2); [|lia].
Qed.

Lemma handleAssign_run (h : Home) (g : Rng) (w : World) :
  2 ≤ length (participants h) →
  let res := fst (assignSecretSantas (participants h) g) in
  let u := snd (createEncryptedTokensAndVerify window res (participants h) w
                  (setVerification None (setEncryptedTokens None (setError None (ui h))))) in
  fst (fst (handleAssign window h g w))
  = {| form_name := form_name h; form_email := form_email h;
       participants := participants h; assignments := Some res;
       ui := u; sendStatus := sendStatus h |}.
Proof.
  intros Hn res u. unfold handleAssign. cbn [participants with_ui].
  destruct (Nat.ltb_spec (length (participants h)) 2); [lia|].
  subst res u. destruct (assignSecretSantas (participants h) g) as [res g'].
  cbn [fst setAssignments with_ui participants ui].
  by destruct (createEncryptedTokensAndVerify window res (participants h) w _).
Qed.

(** X19. "Assign Santas" with at least two participants that are unique by
    id stores the engine's result and a verification with both flags true:
    the page shows PASS twice, whatever [Math.random] returns and whether
    or not the tokens can be made. *)
Theorem handleAssign_passes (h : Home) (g : Rng) (w : World) :
  unique_by_id (participants h) → 2 ≤ length (participants h) →
  assignments (fst (fst (handleAssign window h g w)))
  = Some (fst (assignSecretSantas (participants h) g))
  ∧ participants (fst (fst (handleAssign window h g w))) = participants h
  ∧ verification (ui (fst (fst (handleAssign window h g w))))
    = Some {| derangement := true; bijection := true |}.
Proof.
  intros Hu Hn. rewrite handleAssign_run by done. cbn.
  split; [done|]. split; [done|].
  rewrite create_verification. f_equal.
  (* the flags of the engine's own result *)
  assert (derangement (verify (fst (assignSecretSantas (participants h) g))
                              (participants h)) = true) as Hd.
  { apply verify_derangement.
    destruct (assign_cases (participants h) g Hn) as [(rs & Hp & Hok & ->)|[_ ->]].
    - apply pair_up_no_self; [by rewrite Hp|done].
    - by apply rotation_no_self. }
  assert (bijection (verify (fst (assignSecretSantas (participants h) g))
                            (participants h)) = true) as Hb.
  { apply verify_bijection_NoDup; [by apply assign_length|].
    rewrite (recipient_ids_Permutation (participants h)); [done|].
    by apply assign_recipients. }
  destruct (verify _ (participants h)) as [d b]. cbn in *. by subst.
Qed.

Lemma step_consistent (h h' : Home) :
  step window trim toString36 h h' → consistent h → consistent h'.
Proof.
  intros Hstep Hc. destruct Hstep as [v h|v h|h g|i h|h g w|h w|reply h|h].
  - exact Hc.
  - exact Hc.
  - destruct (decide (trim (form_name h) = "" ∨ trim (form_email h) = "")) as [Hb|Hb].
    + rewrite addParticipant_blank by done. exact Hc.
    + intros res. unfold addParticipant. cbn [form_name form_email with_ui].
      rewrite !bool_decide_eq_false_2 by tauto. cbn [orb]. by rand_simpl.
  - by intros res.
  - destruct (decide (length (participants h) < 2)) as [Hn|Hn].
    + rewrite handleAssign_too_few by done. exact Hc.
    + rewrite handleAssign_run by lia. intros res. cbn. intros [= <-].
      split; [apply assign_givers; lia|]. split; [lia|].
      split; [apply create_verification|]. by apply create_tokens.
  - unfold toggleTokens. destruct (encryptedTokens (ui h)) as [tokens|] eqn:Ht.
    + intros res Hres. cbn in *. destruct (Hc res Hres) as (? & ? & ? & _). done.
    + destruct (assignments h) as [res|] eqn:Hres; [|exact Hc].
      destruct (Hc res Hres) as (Hg & Hn & _ & _).
      pose proof (create_verification window res (participants h) w (ui h)) as Hv.
      pose proof (create_tokens window res (participants h) w (ui h) Ht) as Hk.
      destruct (createEncryptedTokensAndVerify window res (participants h) w (ui h))
        as [w' u]. cbn in *. intros res'. cbn. rewrite Hres. intros [= <-]. done.
  - unfold sendEmails. destruct (assignments h) eqn:Hres; [|exact Hc].
    intros res. cbn. rewrite Hres. intros [= <-]. by apply Hc.
  - exact Hc.
Qed.

Lemma reachable_consistent (h : Home) :
  reachable window trim toString36 h → consistent h.
Proof.
  induction 1 as [|h h' _ IH Hstep]; [by intros res|].
  by eapply step_consistent.
Qed.

(** X20. The assignments on the page always belong to the participants on
    the page: in every state reached from the initial one by the page's
    events, when there are assignments their givers are the current
    participants, in order, and there are at least two of them. *)
Theorem assignments_match_participants (h : Home) (res : list Assignment) :
  reachable window trim toString36 h → assignments h = Some res →
  giver <$> res = participants h ∧ 2 ≤ length (participants h).
Proof.
  intros Hr Hres. destruct (reachable_consistent h Hr res Hres) as (? & ? & _). done.
Qed.

(** X21. The flags on the page are never stale: in every reachable state
    with assignments, the stored verification is the one computed from
    those assignments and the current participants. *)
Theorem verification_matches_assignments (h : Home) (res : list Assignment) :
  reachable window trim toString36 h → assignments h = Some res →
  verification (ui h) = Some (verify res (participants h)).
Proof.
  intros Hr Hres. destruct (reachable_consistent h Hr res Hres) as (_ & _ & ? & _). done.
Qed.

(** X22. When every handler runs to its end before the next event (no
    token generation is still under way), the tokens on the page line up
    with the assignments: in every reachable state with assignments and
    tokens, there is one token per assignment. *)
Theorem tokens_match_assignments (h : Home) (res : list Assignment)
    (tokens : list string) :
  reachable window trim toString36 h → assignments h = Some res →
  encryptedTokens (ui h) = Some tokens → length tokens = length res.
Proof.
  intros Hr Hres. destruct (reachable_consistent h Hr res Hres) as (_ & _ & _ & Hk).
  apply Hk.
Qed.
End HomeFacts.

(** ** More about the send-emails route *)

Lemma completion_bind_Normal {A B} (m : Route.Completion A)
    (k : A → Route.Completion B) (y : B) :
  m ≫= k = Route.Normal y → ∃ x, m = Route.Normal x ∧ k x = Route.Normal y.
Proof. destruct m as [x|msg]; [|done]. intros H. by exists x. Qed.

Lemma well_formed_readable (a : Route.JSON) :
  Route.well_formed a = true ↔
  Route.readable (Some a) = true ∧ Route.readable (Route.field (Some a) "giver") = true
  ∧ Route.readable (Route.field (Some a) "recipient") = true.
Proof.
  destruct a as [| | | | |fields]; cbn; try (split; [done|by intros (_ & ? & _)]).
  rewrite andb_true_iff. tauto.
Qed.

Section RouteMore.
Import Route.
Context {World : Type}.
Variable type_error : Value → string → string.
Variable number_text : Q → string.
Variable convert_error : string.
Variable parseFromString : string → string * string.
Variable fetch : Request → World → Completion ProviderReply * World.

Local Abbreviation payload_of := (payload_of type_error number_text convert_error parseFromString).
Local Abbreviation send_loop := (send_loop type_error number_text convert_error parseFromString fetch).
Local Abbreviation POST := (POST type_error number_text convert_error parseFromString fetch).

Local Abbreviation printable := (printable number_text convert_error).
Local Abbreviation mailable := (mailable number_text convert_error).
Local Abbreviation interpolate := (interpolate number_text convert_error).

Lemma get_field (v : Value) (k : string) :
  readable v = true → get type_error v k = Normal (field v k).
Proof. by destruct v as [[]|]. Qed.

Lemma get_Normal (v : Value) (k : string) (x : Value) :
  get type_error v k = Normal x → readable v = true ∧ x = field v k.
Proof. destruct v as [[]|]; cbn; by intros [= <-]. Qed.

(** Every string, and [undefined], can be put into a template literal; an
    object with a field [toString] of its own cannot. *)
Lemma printable_string (s : string) : printable (Some (JStr s)).
Proof. by exists s. Qed.

Lemma printable_undefined : printable None.
Proof. by eexists. Qed.

Lemma unprintable_own_toString (fields : list (string * JSON)) (v : JSON) :
  assoc "toString" fields = Some v → ¬ printable (Some (JObj fields)).
Proof. intros H [s Hs]. cbn in Hs. by rewrite H in Hs. Qed.

(** The message of a mailable element. *)
Lemma payload_of_mailable (env : Env) (a : JSON) :
  mailable a →
  ∃ p, payload_of env a = Normal p
       ∧ to_address p = field (field (Some a) "giver") "email"
       ∧ to_name p = field (field (Some a) "giver") "name"
       ∧ from p = from_of parseFromString env
       ∧ interpolate (field (field (Some a) "giver") "name")
         ≫= (λ gn, interpolate (field (field (Some a) "recipient") "name")
         ≫= (λ rn, interpolate (field (field (Some a) "recipient") "email")
         ≫= (λ re, Normal ("Hi " +:+ gn +:+ "," +:+ nl +:+ nl +:+
               "You have been assigned to give a gift to " +:+ rn +:+
               " (" +:+ re +:+ ")." +:+ nl +:+ nl +:+ "Happy gifting!"))))
         = Normal (text p).
Proof.
  intros (Hwf & [gn Hgn] & [rn Hrn] & [re Hre]).
  apply well_formed_readable in Hwf as (Ha & Hg & Hr).
  unfold Route.payload_of.
  rewrite (get_field _ "giver" Ha), (get_field _ "recipient" Ha). cbn [mbind Completion_bind].
  rewrite (get_field _ "email" Hg), (get_field _ "name" Hg). cbn [mbind Completion_bind].
  rewrite (get_field _ "email" Hr), (get_field _ "name" Hr). cbn [mbind Completion_bind].
  rewrite Hgn, Hrn, Hre. cbn [mbind Completion_bind mret Completion_ret].
  eexists. split; [reflexivity|]. by cbn.
Qed.

(** Only a mailable element yields a message. *)
Lemma payload_of_Normal (env : Env) (a : JSON) (p : Payload) :
  payload_of env a = Normal p → mailable a.
Proof.
  unfold Route.payload_of. intros H.
  apply completion_bind_Normal in H as (giver & [Ha ->]%get_Normal & H).
  apply completion_bind_Normal in H as (ge & [Hg ->]%get_Normal & H).
  apply completion_bind_Normal in H as (recipient & [_ ->]%get_Normal & H).
  apply completion_bind_Normal in H as (re & [Hr ->]%get_Normal & H).
  apply completion_bind_Normal in H as (gn & [_ ->]%get_Normal & H).
  apply completion_bind_Normal in H as (gnt & Hgn & H).
  apply completion_bind_Normal in H as (rn & [_ ->]%get_Normal & H).
  apply completion_bind_Normal in H as (rnt & Hrn & H).
  apply completion_bind_Normal in H as (ret & Hre & H).
  split; [by apply well_formed_readable|]. split; [by exists gnt|].
  split; [by exists rnt|by exists ret].
Qed.

(** X23. An element of the array yields a message exactly when its [giver]
    and [recipient] are present and not [null] and the three values put into
    the text (the giver's name, the recipient's name and email) can be
    converted to text; otherwise building the message throws. The message is
    addressed to whatever [a.giver.email] and [a.giver.name] are: a giver
    that has no [email] is mailed at [undefined]. *)
Theorem message_built_iff_mailable (env : Env) (a : JSON) :
  (mailable a →
     ∃ p, payload_of env a = Normal p
       ∧ to_address p = field (field (Some a) "giver") "email"
       ∧ to_name p = field (field (Some a) "giver") "name"
       ∧ from p = from_of parseFromString env)
  ∧ (∀ p, payload_of env a = Normal p → mailable a)
  ∧ (¬ mailable a → ∃ msg, payload_of env a = Throws msg).
Proof.
  split; [|split].
  - intros Hm. destruct (payload_of_mailable env a Hm) as (p & ? & ? & ? & ? & _).
    by exists p.
  - apply payload_of_Normal.
  - intros Hno. destruct (payload_of env a) as [p|msg] eqn:Hp; [|by exists msg].
    destruct Hno. by eapply payload_of_Normal.
Qed.

Lemma or_str_Some (s b : string) : s ≠ "" → or_str (Some s) b = s.
Proof.
  intros Hs. unfold or_str, or_else. by destruct (bool_decide_reflect (s = "")).
Qed.

Lemma or_str_nonempty (a : option string) (b : string) : b ≠ "" → or_str a b ≠ "".
Proof.
  intros Hb. unfold or_str, or_else. destruct a as [s|]; [|done].
  by destruct (bool_decide_reflect (s = "")).
Qed.

(** X24. The sender is never empty: whatever the environment holds and
    whatever [parseFromString] returns, the [from] address of a message is
    a non-empty string ("no-reply@example.com" when nothing else is
    found). *)
Theorem from_address_nonempty (env : Env) :
  address (from_of parseFromString env) ≠ "".
Proof.
  unfold from_of.
  destruct (bool_decide (or_str (MAILEROO_FROM_ADDRESS env) "" = "")); cbn.
  - match goal with |- context [bool_decide (?x = "")] =>
      destruct (bool_decide_reflect (x = "")) end; done.
  - match goal with |- context [bool_decide (?x = "")] =>
      destruct (bool_decide_reflect (x = "")) end; done.
Qed.

(** X25. [MAILEROO_FROM_ADDRESS] wins over [MAILEROO_FROM]: when it is set
    to a non-empty string it is the sender address, [MAILEROO_FROM] is not
    parsed, and the display name is [MAILEROO_FROM_NAME] or, when that is
    unset or empty, absent (the default "Secret Santa" is only used on the
    other path). *)
Theorem from_address_precedence (env : Env) (addr : string) :
  MAILEROO_FROM_ADDRESS env = Some addr → addr ≠ "" →
  from_of parseFromString env
  = {| address := addr;
       display_name := if str_truthy (MAILEROO_FROM_NAME env)
                       then MAILEROO_FROM_NAME env else None |}.
Proof.
  intros Ha Hne. unfold from_of. rewrite Ha, (or_str_Some addr "") by done.
  destruct (bool_decide_reflect (addr = "")); [done|]. cbn.
  destruct (bool_decide_reflect (addr = "")); [done|]. f_equal.
  unfold or_str, or_else, str_truthy.
  destruct (MAILEROO_FROM_NAME env) as [nm|]; [|done].
  destruct (bool_decide_reflect (nm = "")) as [->|Hnm]; cbn; [done|].
  by destruct (bool_decide_reflect (nm = "")).
Qed.

(** X26. Without an API key or an API URL nothing is sent: a request with
    a non-empty [assignments] array is answered with status 500 and the
    "Maileroo not configured" error, whatever the array holds. *)
Theorem unconfigured_sends_nothing (env : Env) (body : JSON) (w : World) :
  nonempty_array (assignments_of body) = true → configured env = false →
  POST env (Normal body) w
  = ({| code := 500; body := ErrorBody not_configured |}, w, []).
Proof.
  intros Hne Hconf. unfold Route.POST, try_block.
  destruct body as [| | | | |fields]; try done. cbn [get]. cbn in Hne.
  rewrite no_assignments_nonempty, Hne. cbn [negb].
  unfold configured in Hconf. rewrite <- negb_andb, Hconf. done.
Qed.

(** One element more: how the loop goes on after a prefix that went
    through. *)
Lemma send_loop_app (env : Env) (url key : string) (pre rest : list JSON)
    (results results1 : list Result) (success success1 : nat)
    (w w1 : World) (log log1 : list Request) :
  send_loop env url key pre results success w log
  = (Normal (results1, success1), w1, log1) →
  send_loop env url key (pre ++ rest) results success w log
  = send_loop env url key rest results1 success1 w1 log1.
Proof.
  revert results success w log.
  induction pre as [|a pre IH]; intros results success w log; cbn [Route.send_loop app].
  - by intros [= <- <- <- <-].
  - destruct (payload_of env a) as [p|msg]; [|done].
    destruct (fetch _ w) as [[reply|msg] w']; [|done]. apply IH.
Qed.





(** X29. A request that fails stops the handler in the same way: when the
    elements before went through and [fetch] rejects for one element, the
    answer has status 500 and the message of the failure, the log holds the
    earlier requests and the one that failed, and the elements after it are
    not touched. No summary of what was sent is returned. *)
Theorem failed_request_stops (env : Env) (body : JSON) (pre post : list JSON)
    (a : JSON) (p : Payload) (msg : string) (w w1 w2 : World)
    (results1 : list Result) (success1 : nat) (log1 : list Request) :
  let url := default "" (or_else (MAILEROO_API_URL env) (MAILEROO_URL env)) in
  let key := default "" (MAILEROO_API_KEY env) in
  let rq := {| url := url; authorization := "Bearer " +:+ key; payload := p |} in
  assignments_of body = Some (JArr (pre ++ a :: post)) →
  configured env = true →
  send_loop env url key pre [] 0 w [] = (Normal (results1, success1), w1, log1) →
  payload_of env a = Normal p →
  fetch rq w1 = (Throws msg, w2) →
  POST env (Normal body) w
  = ({| code := 500; body := ErrorBody msg |}, w2, log1 ++ [rq]).
Proof.
  intros url key rq Hbody Hconf Hloop Hp Hf.
  unfold Route.POST, try_block.
  destruct body as [| | | | |fields]; try done. cbn [get]. cbn in Hbody.
  rewrite Hbody. rewrite no_assignments_nonempty.
  assert (nonempty_array (Some (JArr (pre ++ a :: post))) = true) as ->.
  { by destruct pre. }
  cbn [negb]. unfold configured in Hconf. rewrite <- negb_andb, Hconf. cbn [negb].
  fold url key. rewrite (send_loop_app _ _ _ _ _ _ _ _ _ _ _ _ _ Hloop).
  cbn [Route.send_loop]. rewrite Hp. fold rq. by rewrite Hf.
Qed.
End RouteMore.

(** ** The page and the route together *)

Section PageRoute.
Import Route.
Context {World : Type}.
Variable type_error : Value → string → string.
Variable number_text : Q → string.
Variable convert_error : string.
Variable parseFromString : string → string * string.
Variable fetch : Request → World → Completion ProviderReply * World.

Local Abbreviation payload_of := (payload_of type_error number_text convert_error parseFromString).
Local Abbreviation send_loop := (send_loop type_error number_text convert_error parseFromString fetch).
Local Abbreviation POST := (POST type_error number_text convert_error parseFromString fetch).

Lemma assignment_json_mailable (a : Assignment) :
  mailable number_text convert_error (assignment_json a).
Proof. split; [reflexivity|]. repeat split; by eexists. Qed.


End PageRoute.

(** ** Sample runs of the extra results *)

Lemma addParticipant_blank_witness :
  addParticipant toy_trim toy_toString36 (setName "A" initial) (λ _, half)
  = (with_ui (setError (Some missing_fields) (ui (setName "A" initial)))
             (setName "A" initial), λ _, half).
Proof. apply addParticipant_blank. by right. Defined.

Lemma addParticipant_appends_witness :
  fst (addParticipant toy_trim toy_toString36
         (setEmail "b@x.org" (setName "B" home_one)) (λ _, zero))
  = {| form_name := ""; form_email := "";
       participants := participants (setEmail "b@x.org" (setName "B" home_one))
         ++ [ {| id := fst (uid toy_toString36 (λ _, zero)); name := "B";
                 email := "b@x.org" |} ];
       assignments := None;
       ui := setError None (ui (setEmail "b@x.org" (setName "B" home_one)));
       sendStatus := None |}
  ∧ (unique_by_id (participants (setEmail "b@x.org" (setName "B" home_one))
       ++ [ {| id := fst (uid toy_toString36 (λ _, zero)); name := "B";
               email := "b@x.org" |} ])
     ↔ unique_by_id (participants (setEmail "b@x.org" (setName "B" home_one)))
       ∧ fst (uid toy_toString36 (λ _, zero))
         ∉ id <$> participants (setEmail "b@x.org" (setName "B" home_one))).
Proof.
  apply (addParticipant_appends toy_trim toy_toString36
           (setEmail "b@x.org" (setName "B" home_one)) (λ _, zero)); by_compute.
Defined.

Lemma handleAssign_too_few_witness :
  handleAssign (Some toy_window) home_one (λ _, zero) []
  = (with_ui (setError (Some too_few) (ui home_one)) home_one, λ _, zero, []).
Proof. apply handleAssign_too_few. vm_compute. lia. Defined.

Lemma handleAssign_passes_witness :
  assignments (fst (fst (handleAssign (Some toy_window) home_two (λ _, zero) [])))
  = Some (fst (assignSecretSantas (participants home_two) (λ _, zero)))
  ∧ participants (fst (fst (handleAssign (Some toy_window) home_two (λ _, zero) [])))
    = participants home_two
  ∧ verification (ui (fst (fst (handleAssign (Some toy_window) home_two (λ _, zero) []))))
    = Some {| derangement := true; bijection := true |}.
Proof.
  apply handleAssign_passes.
  - by_compute.
  - vm_compute. lia.
Defined.

Lemma home_assigned_reachable :
  reachable (Some toy_window) toy_trim toy_toString36 home_assigned.
Proof.
  unfold home_assigned. eapply reachable_step; [|apply step_assign].
  unfold home_two. eapply reachable_step; [|apply step_add].
  eapply reachable_step; [|apply step_email].
  eapply reachable_step; [|apply step_name].
  unfold home_one. eapply reachable_step; [|apply step_add].
  eapply reachable_step; [|apply step_email].
  eapply reachable_step; [|apply step_name].
  apply reachable_initial.
Qed.

Lemma assignments_match_participants_witness :
  giver <$> default [] (assignments home_assigned) = participants home_assigned
  ∧ 2 ≤ length (participants home_assigned).
Proof.
  apply (assignments_match_participants (Some toy_window) toy_trim toy_toString36).
  - apply home_assigned_reachable.
  - vm_compute. reflexivity.
Defined.

Lemma verification_matches_assignments_witness :
  verification (ui home_assigned)
  = Some (verify (default [] (assignments home_assigned)) (participants home_assigned)).
Proof.
  apply (verification_matches_assignments (Some toy_window) toy_trim toy_toString36).
  - apply home_assigned_reachable.
  - vm_compute. reflexivity.
Defined.

Lemma tokens_match_assignments_witness :
  length (default [] (encryptedTokens (ui home_assigned)))
  = length (default [] (assignments home_assigned)).
Proof.
  apply (tokens_match_assignments (Some toy_window) toy_trim toy_toString36 home_assigned).
  - apply home_assigned_reachable.
  - vm_compute. reflexivity.
  - vm_compute. reflexivity.
Defined.

Lemma from_address_precedence_witness :
  Route.from_of toy_parseFromString elf_env
  = {| Route.address := "elf@x.org"; Route.display_name := None |}.
Proof.
  apply (from_address_precedence toy_parseFromString elf_env "elf@x.org"); done.
Defined.


Lemma unconfigured_sends_nothing_witness :
  toy_POST bare_env
    (Route.Normal (Route.JObj [("assignments", Route.JArr [Route.JNull])])) 0
  = ({| Route.code := 500; Route.body := Route.ErrorBody Route.not_configured |}, 0, []).
Proof.
  apply (unconfigured_sends_nothing toy_type_error toy_number_text toy_convert_error toy_parseFromString
           toy_fetch bare_env (Route.JObj [("assignments", Route.JArr [Route.JNull])]) 0);
    reflexivity.
Defined.




Lemma failed_request_stops_witness :
  flaky_POST elf_env
    (Route.Normal (Route.JObj [("assignments", Route.JArr (two_elements ++ two_elements))]))
    0
  = ({| Route.code := 500; Route.body := Route.ErrorBody "fetch failed" |}, 2,
     snd (flaky_POST elf_env
            (Route.Normal (Route.JObj [("assignments",
               Route.JArr (two_elements ++ two_elements))])) 0)).
Proof.
  eapply (failed_request_stops toy_type_error toy_number_text toy_convert_error toy_parseFromString flaky_fetch
            elf_env _ [assignment_json {| giver := alice; recipient := bob |}]
            (two_elements ++ [])
            (assignment_json {| giver := bob; recipient := alice |})).
  - reflexivity.
  - reflexivity.
  - vm_compute. reflexivity.
  - vm_compute. reflexivity.
  - vm_compute. reflexivity.
Defined.


Example page_status_line :
  sendStatus (sendEmails (Route.Normal (fst (fst (toy_POST elf_env
     (Route.Normal (request_body (default [] (assignments home_assigned)))) 0))))
     home_assigned)
  = Some "Sent: 2/2 emails".
Proof. vm_compute. reflexivity. Qed.

Lemma message_built_iff_mailable_witness :
  (∃ p,
     Route.payload_of toy_type_error toy_number_text toy_convert_error
       toy_parseFromString elf_env
       (assignment_json {| giver := alice; recipient := bob |}) = Route.Normal p
     ∧ Route.to_address p
       = Route.field (Route.field
           (Some (assignment_json {| giver := alice; recipient := bob |})) "giver") "email"
     ∧ Route.to_name p
       = Route.field (Route.field
           (Some (assignment_json {| giver := alice; recipient := bob |})) "giver") "name"
     ∧ Route.from p = Route.from_of toy_parseFromString elf_env)
  ∧ (∃ msg,
       Route.payload_of toy_type_error toy_number_text toy_convert_error
         toy_parseFromString elf_env odd_name_element = Route.Throws msg)
  ∧ (∃ msg,
       Route.payload_of toy_type_error toy_number_text toy_convert_error
         toy_parseFromString elf_env no_recipient_element = Route.Throws msg).
Proof.
  split; [|split].
  - apply (message_built_iff_mailable toy_type_error toy_number_text toy_convert_error
             toy_parseFromString elf_env
             (assignment_json {| giver := alice; recipient := bob |})).
    apply assignment_json_mailable.
  - apply (message_built_iff_mailable toy_type_error toy_number_text toy_convert_error
             toy_parseFromString elf_env odd_name_element).
    intros (_ & [s Hs] & _). discriminate Hs.
  - apply (message_built_iff_mailable toy_type_error toy_number_text toy_convert_error
             toy_parseFromString elf_env no_recipient_element).
    intros (Hwf & _). discriminate Hwf.
Defined.

Example odd_name_answer :
  toy_POST elf_env
    (Route.Normal (Route.JObj [("assignments", Route.JArr [odd_name_element])])) 0
  = ({| Route.code := 500; Route.body := Route.ErrorBody toy_convert_error |}, 0, []).
Proof. vm_compute. reflexivity. Qed.

Lemma removeParticipant_removes_witness :
  unique_by_id (participants (removeParticipant "1z2" home_two))
  ∧ assignments (removeParticipant "1z2" home_assigned) = None.
Proof.
  split.
  - apply (removeParticipant_removes "1z2" home_two). by_compute.
  - apply (removeParticipant_removes "1z2" home_assigned).
Defined.
